(** * Sequential chains: validation and execution

    A shallow embedding of [libs/langchain/langchain/chains/sequential.py]:
    the two pipeline classes [SequentialChain] (keyed variables threaded
    through a list of steps) and [SimpleSequentialChain] (one scalar piped
    through the steps), their construction-time validators and their
    blocking and suspendable [_call]/[_acall] methods.

    Modelling conventions.
    - Python [str] is [string]; a Python [list] is a [list]; a Python [set]
      of names is a [gset string]; a Python [dict] keyed by names is a
      [gmap string V].
    - A raised exception is the [Raise] branch of [result]; the text of a
      [ValueError] is kept structured ([ValidationMsg]) so that the names a
      message interpolates can be compared.
    - Dictionaries that the methods copy or update in place live in a store
      indexed by references ([World]); methods are state-passing functions
      over that store, the receiver object and the observer trace.
    - A step (a [Chain]) is an external capability: its declared keys are
      data, its invocation forms are functions carried by the record. *)

From Stdlib Require Import String Ascii List ZArith Lia Decimal DecimalString.
From stdpp Require Import base option list strings gmap sets.

Local Open Scope string_scope.

(** ** Exceptions and results *)

(** The interpolated parts of each [ValueError] built by the validators. *)
Inductive ValidationMsg : Type :=
| OverlappingMemoryKeys (overlapping_keys : gset string) (memory_keys : list string)
| MissingInput (missing_vars known_variables : gset string)
| DuplicateOutput (overlapping_keys : gset string)
| UnknownOutput (missing_vars : gset string)
| ArityInput (chain : string) (n : nat)
| ArityOutput (chain : string) (n : nat).

Inductive exn : Type :=
| ValueError (msg : ValidationMsg)
| KeyError (key : string)
| IndexError
| StepError (info : string)
| FieldRequired (field : string)
| InvalidReference (l : positive).

Inductive result (A : Type) : Type :=
| Ok (a : A)
| Raise (e : exn).
Arguments Ok {A} a.
Arguments Raise {A} e.

Definition result_bind {A B} (f : A -> result B) (r : result A) : result B :=
  match r with
  | Ok a => f a
  | Raise e => Raise e
  end.

#[global] Instance result_mret : MRet result := fun _ a => Ok a.
#[global] Instance result_mbind : MBind result := fun _ _ f r => result_bind f r.

(** ** Observers *)

(** [run_manager or ....get_noop_manager()]: the manager of the enclosing
    run, or the no-op one. *)
Inductive RunManager : Type :=
| NoopManager
| Manager (run_id : nat).

(** What [get_child(tag)] returns: a child manager scoped under its parent,
    carrying the optional tag. *)
Record Callbacks : Type := mkCallbacks {
  cb_parent : RunManager;
  cb_tag : option string
}.

Definition get_child (m : RunManager) (tag : option string) : Callbacks :=
  mkCallbacks m tag.

Definition or_noop (run_manager : option RunManager) : RunManager :=
  match run_manager with
  | Some m => m
  | None => NoopManager
  end.

(** Notifications an invocation sends: the pipeline's own [on_text] calls
    and whatever a step reports through the callbacks it was handed. *)
Inductive Event : Type :=
| EvText (manager : RunManager) (text color end_ : string) (verbose : bool)
| EvStep (callbacks : Callbacks) (payload : string).

(** ** Suspendable computations

    An awaitable either has its value or must be resumed once more; awaiting
    it resumes it until the value is there. *)
Inductive Co (A : Type) : Type :=
| Now (a : A)
| Later (c : Co A).
Arguments Now {A} a.
Arguments Later {A} c.

Fixpoint await {A} (c : Co A) : A :=
  match c with
  | Now a => a
  | Later c' => await c'
  end.

Fixpoint co_bind {A B} (f : A -> Co B) (c : Co A) : Co B :=
  match c with
  | Now a => f a
  | Later c' => Later (co_bind f c')
  end.

(** ** Python built-ins used by the source *)

(** [str(i)] for a non-negative integer. *)
Definition str (i : nat) : string := NilEmpty.string_of_uint (Nat.to_uint i).

(** Characters removed by [str.strip()] (code points below 128). *)
Definition isspace (a : ascii) : bool :=
  let n := nat_of_ascii a in
  (((9 <=? n) && (n <=? 13)) || ((28 <=? n) && (n <=? 32)))%nat.

Fixpoint lstrip (s : string) : string :=
  match s with
  | EmptyString => EmptyString
  | String a s' => if isspace a then lstrip s' else s
  end.

Fixpoint rstrip (s : string) : string :=
  match s with
  | EmptyString => EmptyString
  | String a s' =>
      match rstrip s' with
      | EmptyString => if isspace a then EmptyString else String a EmptyString
      | t => String a t
      end
  end.

Definition strip (s : string) : string := rstrip (lstrip s).

(** [memory.memory_variables] of a memory object. *)
Record BaseMemory : Type := mkMemory {
  memory_variables : list string
}.

(** ** Steps *)

Section Steps.
Context {V : Type}.

(** The part of [langchain.chains.base.Chain] that the pipelines use.
    [chain_call] is [chain(inputs, return_only_outputs=True, callbacks=cb)],
    [chain_acall] is [chain.acall(...)], [chain_run]/[chain_arun] are
    [chain.run(x, callbacks=cb)] and [chain.arun(...)]; each yields the
    notifications the step sent and its outcome. [chain_str] is what
    [f"{chain}"] prints. A step is a function of the callbacks and of the
    content of the dictionary (or the value) it is handed: it reaches
    neither the store nor the pipeline object. *)
Record Chain : Type := mkChain {
  chain_str : string;
  input_keys : list string;
  output_keys : list string;
  memory : option BaseMemory;
  chain_call : Callbacks -> gmap string V -> list Event * result (gmap string V);
  chain_acall : Callbacks -> gmap string V -> Co (list Event * result (gmap string V));
  chain_run : Callbacks -> V -> list Event * result V;
  chain_arun : Callbacks -> V -> Co (list Event * result V)
}.
End Steps.
Arguments Chain V : clear implicits.

(** ** The store and the two kinds of method bodies *)

Section Exec.
Context {Self V : Type}.

(** What a method can read and change: its receiver [self], the
    dictionaries reachable through references, and the notifications sent
    so far. *)
Record World : Type := mkWorld {
  self : Self;
  dicts : gmap positive (gmap string V);
  trace : list Event
}.

(** A blocking method body. *)
Definition M (A : Type) : Type := World -> result A * World.

(** A suspendable method body ([async def]). *)
Definition AM (A : Type) : Type := World -> Co (result A * World).

Definition M_ret {A} (a : A) : M A := fun w => (Ok a, w).

Definition M_bind {A B} (f : A -> M B) (m : M A) : M B :=
  fun w =>
    match m w with
    | (Ok a, w') => f a w'
    | (Raise e, w') => (Raise e, w')
    end.

Definition AM_ret {A} (a : A) : AM A := fun w => Now (Ok a, w).

Definition AM_bind {A B} (f : A -> AM B) (m : AM A) : AM B :=
  fun w =>
    co_bind (fun rw =>
               match rw with
               | (Ok a, w') => f a w'
               | (Raise e, w') => Now (Raise e, w')
               end) (m w).

(** Running a suspendable body to completion. *)
Definition run_async {A} (m : AM A) : M A := fun w => await (m w).

(** A blocking operation used inside a suspendable body. *)
Definition lift {A} (m : M A) : AM A := fun w => Now (m w).

Definition of_result {A} (r : result A) : M A := fun w => (r, w).

(** Reading an attribute of [self]. *)
Definition get_attr {A} (field : Self -> A) : M A :=
  fun w => (Ok (field (self w)), w).

Definition emit (evs : list Event) : M unit :=
  fun w => (Ok tt, mkWorld (self w) (dicts w) (trace w ++ evs)).

(** The content of the dictionary behind a reference. *)
Definition dict_read (l : positive) : M (gmap string V) :=
  fun w =>
    match dicts w !! l with
    | Some d => (Ok d, w)
    | None => (Raise (InvalidReference l), w)
    end.

(** [d.copy()]: a new dictionary with the same items. *)
Definition dict_copy (l : positive) : M positive :=
  fun w =>
    match dicts w !! l with
    | Some d =>
        let l' := fresh (dom (dicts w)) in
        (Ok l', mkWorld (self w) (<[l' := d]> (dicts w)) (trace w))
    | None => (Raise (InvalidReference l), w)
    end.

(** [d.update(other)]: the items of [other] win. *)
Definition dict_update (l : positive) (other : gmap string V) : M unit :=
  fun w =>
    match dicts w !! l with
    | Some d => (Ok tt, mkWorld (self w) (<[l := other ∪ d]> (dicts w)) (trace w))
    | None => (Raise (InvalidReference l), w)
    end.

(** [d[key]]. *)
Definition getitem (d : gmap string V) (key : string) : result V :=
  match d !! key with
  | Some v => Ok v
  | None => Raise (KeyError key)
  end.

(** A blocking step invocation: its notifications reach the observer,
    then its value or its exception comes back. *)
Definition invoke {A} (outcome : list Event * result A) : M A :=
  fun w =>
    (snd outcome, mkWorld (self w) (dicts w) (trace w ++ fst outcome)).

(** [await] on a step's suspendable form. *)
Definition awaiting {A} (c : Co (list Event * result A)) : AM A :=
  fun w =>
    co_bind (fun outcome =>
               Now (snd outcome,
                    mkWorld (self w) (dicts w) (trace w ++ fst outcome))) c.

(** [await _run_manager.on_text(...)]: the suspendable manager delivers the
    same notification, after giving control back once. *)
Definition async_emit (evs : list Event) : AM unit :=
  fun w => Later (Now (emit evs w)).
End Exec.
Arguments World Self V : clear implicits.
Arguments M Self V A : clear implicits.
Arguments AM Self V A : clear implicits.

#[global] Instance M_mret {Self V} : MRet (M Self V) := fun _ a => M_ret a.
#[global] Instance M_mbind {Self V} : MBind (M Self V) := fun _ _ f m => M_bind f m.
#[global] Instance AM_mret {Self V} : MRet (AM Self V) := fun _ a => AM_ret a.
#[global] Instance AM_mbind {Self V} : MBind (AM Self V) := fun _ _ f m => AM_bind f m.

(** ** [class SequentialChain] *)

Module SequentialChain.
Section Keyed.
Context {V : Type}.

(** A collection of names as Python holds it: the validator stores a [set]
    under ["output_variables"] in one branch and a [list] in the other. *)
Inductive PyNames : Type :=
| PyList (l : list string)
| PySet (s : gset string).

(** [set(names)]. *)
Definition names_set (names : PyNames) : gset string :=
  match names with
  | PyList l => list_to_set l
  | PySet s => s
  end.

(** The field type [list[str]] turns a set into a list of its elements;
    the order Python would pick is not fixed, [elements] picks one. *)
Definition names_list (names : PyNames) : list string :=
  match names with
  | PyList l => l
  | PySet s => elements s
  end.

(** The raw [values] dictionary handed to the [mode="before"] validator.
    An optional entry is [None] when its key is absent;
    [values_memory] is [None] also when the entry holds Python's [None]. *)
Record Values : Type := mkValues {
  values_chains : list (Chain V);
  values_input_variables : list string;
  values_memory : option BaseMemory;
  values_output_variables : option PyNames;
  values_return_all : option bool
}.

Definition set_output_variables (values : Values) (output_keys : PyNames) : Values :=
  mkValues (values_chains values) (values_input_variables values)
           (values_memory values) (Some output_keys) (values_return_all values).

(** Lines 52-62: the memory keys, or the overlap error. *)
Definition memory_keys_of (input_variables : list string)
    (memory : option BaseMemory) : result (list string) :=
  match memory with
  | Some memory =>
      let memory_keys := memory_variables memory in
      let overlapping_keys : gset string :=
        list_to_set input_variables ∩ list_to_set memory_keys in
      if decide (overlapping_keys ≠ ∅)
      then Raise (ValueError (OverlappingMemoryKeys overlapping_keys memory_keys))
      else Ok memory_keys
  | None => Ok []
  end.

(** [missing_vars] of one step (lines 67-69). *)
Definition missing_vars_of (chain : Chain V) (known_variables : gset string)
    : gset string :=
  let missing_vars := list_to_set (input_keys chain) ∖ known_variables in
  match memory chain with
  | Some m => missing_vars ∖ list_to_set (memory_variables m)
  | None => missing_vars
  end.

(** The [for chain in chains] loop (lines 66-82), threading
    [known_variables]. *)
Fixpoint validate_steps (chains : list (Chain V)) (known_variables : gset string)
    : result (gset string) :=
  match chains with
  | [] => Ok known_variables
  | chain :: chains' =>
      let missing_vars := missing_vars_of chain known_variables in
      if decide (missing_vars ≠ ∅)
      then Raise (ValueError (MissingInput missing_vars known_variables))
      else
        let overlapping_keys : gset string :=
          known_variables ∩ list_to_set (output_keys chain) in
        if decide (overlapping_keys ≠ ∅)
        then Raise (ValueError (DuplicateOutput overlapping_keys))
        else validate_steps chains' (known_variables ∪ list_to_set (output_keys chain))
  end.

(** Lines 84-94: infer or check ["output_variables"]. *)
Definition finish_outputs (values : Values) (known_variables : gset string)
    : result Values :=
  let chains := values_chains values in
  let input_variables := values_input_variables values in
  match values_output_variables values with
  | None =>
      output_keys ←
        (if default false (values_return_all values)
         then Ok (PySet (known_variables ∖ list_to_set input_variables))
         else match last chains with
              | Some chain => Ok (PyList (output_keys chain))
              | None => Raise IndexError
              end);
      Ok (set_output_variables values output_keys)
  | Some output_variables =>
      let missing_vars := names_set output_variables ∖ known_variables in
      if decide (missing_vars ≠ ∅)
      then Raise (ValueError (UnknownOutput missing_vars))
      else Ok values
  end.

Definition validate_chains (values : Values) : result Values :=
  let chains := values_chains values in
  let input_variables := values_input_variables values in
  memory_keys ← memory_keys_of input_variables (values_memory values);
  known_variables ←
    validate_steps chains (list_to_set (input_variables ++ memory_keys));
  finish_outputs values known_variables.

(** The fields of an instance. *)
Record Obj : Type := mkObj {
  chains : list (Chain V);
  input_variables : list string;
  output_variables : list string;
  return_all : bool
}.

(** Instantiating the model: the before-validator runs on the raw values,
    then each field is filled from the validated dictionary (a missing
    required field is refused). *)
Definition construct (values : Values) : result Obj :=
  values' ← validate_chains values;
  match values_output_variables values' with
  | Some names =>
      Ok (mkObj (values_chains values') (values_input_variables values')
                (names_list names) (default false (values_return_all values')))
  | None => Raise (FieldRequired "output_variables")
  end.

(** [{k: known_values[k] for k in keys}], filling [acc] key by key. *)
Fixpoint comprehension (known_values : gmap string V) (keys : list string)
    (acc : gmap string V) : result (gmap string V) :=
  match keys with
  | [] => Ok acc
  | k :: keys' =>
      v ← getitem known_values k;
      comprehension known_values keys' (<[k := v]> acc)
  end.

(** The loop of [_call] (lines 105-108) from position [i] on. *)
Fixpoint call_steps (known_values : positive) (_run_manager : RunManager)
    (i : nat) (chains : list (Chain V)) : M Obj V unit :=
  match chains with
  | [] => mret tt
  | chain :: chains' =>
      let callbacks := get_child _run_manager None in
      known ← dict_read known_values;
      outputs ← invoke (chain_call chain callbacks known);
      dict_update known_values outputs;;
      call_steps known_values _run_manager (S i) chains'
  end.

Definition _call (inputs : positive) (run_manager : option RunManager)
    : M Obj V (gmap string V) :=
  known_values ← dict_copy inputs;
  let _run_manager := or_noop run_manager in
  chains ← get_attr chains;
  call_steps known_values _run_manager 0 chains;;
  output_variables ← get_attr output_variables;
  known ← dict_read known_values;
  of_result (comprehension known output_variables ∅).

(** The loop of [_acall] (lines 119-123); [callbacks] was obtained once,
    before the loop. *)
Fixpoint acall_steps (known_values : positive) (callbacks : Callbacks)
    (i : nat) (chains : list (Chain V)) : AM Obj V unit :=
  match chains with
  | [] => mret tt
  | chain :: chains' =>
      known ← lift (dict_read known_values);
      outputs ← awaiting (chain_acall chain callbacks known);
      lift (dict_update known_values outputs);;
      acall_steps known_values callbacks (S i) chains'
  end.

Definition _acall (inputs : positive) (run_manager : option RunManager)
    : AM Obj V (gmap string V) :=
  known_values ← lift (dict_copy inputs);
  let _run_manager := or_noop run_manager in
  let callbacks := get_child _run_manager None in
  chains ← lift (get_attr chains);
  acall_steps known_values callbacks 0 chains;;
  output_variables ← lift (get_attr output_variables);
  known ← lift (dict_read known_values);
  lift (of_result (comprehension known output_variables ∅)).

(** *** The vocabulary of the specification

    The sets the specification speaks of, written from its words: the
    known-set at a position of the step list, what a step is missing there
    and what it would overwrite. *)

(** The names a step resolves through its own memory. *)
Definition own_memory_keys (chain : Chain V) : gset string :=
  match memory chain with
  | Some m => list_to_set (memory_variables m)
  | None => ∅
  end.

(** The keys of the pipeline-level memory, none when there is no memory. *)
Definition pipeline_memory_keys (values : Values) : list string :=
  match values_memory values with
  | Some m => memory_variables m
  | None => []
  end.

(** Everything the steps of [cs] produce. *)
Definition produced (cs : list (Chain V)) : gset string :=
  ⋃ ((fun chain => list_to_set (output_keys chain)) <$> cs).

(** The known-set in front of step [i]: the pipeline inputs, the memory
    keys and the outputs of steps [0 .. i-1]. *)
Definition known_set (values : Values) (i : nat) : gset string :=
  list_to_set (values_input_variables values)
  ∪ list_to_set (pipeline_memory_keys values)
  ∪ produced (take i (values_chains values)).

Definition final_known_set (values : Values) : gset string :=
  known_set values (length (values_chains values)).

(** Condition (i): no name is both a pipeline input and a memory key. *)
Definition memory_disjoint (values : Values) : Prop :=
  forall k, k ∈ values_input_variables values ->
            k ∈ pipeline_memory_keys values -> False.

Definition step_missing (values : Values) (i : nat) (chain : Chain V) : gset string :=
  list_to_set (input_keys chain) ∖ known_set values i ∖ own_memory_keys chain.

Definition step_collisions (values : Values) (i : nat) (chain : Chain V) : gset string :=
  known_set values i ∩ list_to_set (output_keys chain).

(** Condition (ii) at every position. *)
Definition inputs_available (values : Values) : Prop :=
  forall i chain, values_chains values !! i = Some chain ->
    step_missing values i chain = ∅.

(** Condition (iii) at every position. *)
Definition outputs_fresh (values : Values) : Prop :=
  forall i chain, values_chains values !! i = Some chain ->
    step_collisions values i chain = ∅.

(** Condition (iv): declared outputs, if any, are known at the end. *)
Definition declared_known (values : Values) : Prop :=
  forall names, values_output_variables values = Some names ->
    names_set names ⊆ final_known_set values.

(** Steps [0 .. i-1] violate neither condition. *)
Definition prefix_valid (values : Values) (i : nat) : Prop :=
  forall j chain, j < i -> values_chains values !! j = Some chain ->
    step_missing values j chain = ∅ /\ step_collisions values j chain = ∅.

(** The output names the specification assigns when validation passes. *)
Definition expected_output_names (values : Values) : option PyNames :=
  match values_output_variables values with
  | Some names => Some names
  | None =>
      if default false (values_return_all values)
      then Some (PySet (final_known_set values
                        ∖ list_to_set (values_input_variables values)))
      else PyList ∘ output_keys <$> last (values_chains values)
  end.

(** The set the step loop starts from (line 64). *)
Definition initial_known (values : Values) : gset string :=
  list_to_set (values_input_variables values ++ pipeline_memory_keys values).

(** Construction stops with exception [e]: the validator raises it and no
    instance comes into being. *)
Definition fails_with (values : Values) (e : exn) : Prop :=
  validate_chains values = Raise e /\ construct values = Raise e.

Definition with_chains (values : Values) (cs : list (Chain V)) : Values :=
  mkValues cs (values_input_variables values) (values_memory values)
           (values_output_variables values) (values_return_all values).

(** *** Invocation, in the words of the specification

    A fresh accumulator seeded with the caller's items; each step, in list
    order, is given the whole accumulator and its outputs are merged into
    it; the result is the accumulator restricted to the output names. *)

(** How a step is invoked: its blocking form, or its suspendable form
    awaited. *)
Definition blocking_form (chain : Chain V) := chain_call chain.
Definition awaited_form (chain : Chain V) :=
  fun callbacks known => await (chain_acall chain callbacks known).

(** Threading the accumulator [acc] through [chains]: the notifications
    sent, the accumulator reached, and the exception that stopped the
    threading if a step raised. *)
Fixpoint thread
    (form : Chain V -> Callbacks -> gmap string V
            -> list Event * result (gmap string V))
    (callbacks : Callbacks) (chains : list (Chain V)) (acc : gmap string V)
    : list Event * gmap string V * option exn :=
  match chains with
  | [] => ([], acc, None)
  | chain :: chains' =>
      match form chain callbacks acc with
      | (evs, Ok outputs) =>
          let '(evs', acc', e) := thread form callbacks chains' (outputs ∪ acc) in
          ((evs ++ evs')%list, acc', e)
      | (evs, Raise e) => (evs, acc, Some e)
      end
  end.

(** The accumulator restricted to [names]. *)
Definition project (acc : gmap string V) (names : list string) : gmap string V :=
  filter (fun kv => kv.1 ∈ names) acc.

(** [d] has a value for every name of [names]. *)
Definition covers (d : gmap string V) (names : list string) : Prop :=
  forall k, k ∈ names -> is_Some (d !! k).

(** What a pipeline expects of a step: given a dictionary with every
    required input that its own memory does not resolve, the step returns,
    and returns at least its declared outputs. *)
Definition step_contract (chain : Chain V) : Prop :=
  forall callbacks d,
    (forall k, k ∈ input_keys chain -> k ∉ own_memory_keys chain -> is_Some (d !! k)) ->
    exists evs outputs,
      chain_call chain callbacks d = (evs, Ok outputs)
      /\ covers outputs (output_keys chain).

(** What one invocation does to a store in which [inputs] refers to the
    caller's dictionary: the outcome, and the store with the accumulator
    at a fresh reference and the notifications appended. *)
Definition invocation
    (form : Chain V -> Callbacks -> gmap string V
            -> list Event * result (gmap string V))
    (inputs : positive) (run_manager : option RunManager)
    (w : World Obj V) : result (gmap string V) * World Obj V :=
  match dicts w !! inputs with
  | None => (Raise (InvalidReference inputs), w)
  | Some d =>
      let '(evs, acc, e) :=
        thread form (get_child (or_noop run_manager) None) (chains (self w)) d in
      (match e with
       | Some e => Raise e
       | None => comprehension acc (output_variables (self w)) ∅
       end,
       mkWorld (self w) (<[fresh (dom (dicts w)) := acc]> (dicts w))
               (trace w ++ evs))
  end.

(** Isolation of a way [run] of invoking the pipeline: a run leaves the
    fields of [self] and every dictionary that existed before it as they
    were, adds at most the accumulator at a fresh reference, and its
    outcome and notifications depend only on the fields, on the content of
    the caller's dictionary and on the run manager; so a run after another
    run gives what it gives without the other. *)
Definition isolated
    (run : positive -> option RunManager -> M Obj V (gmap string V)) : Prop :=
  (forall inputs rm w,
      let w' := snd (run inputs rm w) in
      self w' = self w
      /\ (forall l, l ∈ dom (dicts w) -> dicts w' !! l = dicts w !! l)
      /\ (forall l, l ∈ dom (dicts w') ->
                    l ∈ dom (dicts w) \/ l = fresh (dom (dicts w))))
  /\ (forall inputs rm w1 w2,
        self w1 = self w2 ->
        dicts w1 !! inputs = dicts w2 !! inputs ->
        fst (run inputs rm w1) = fst (run inputs rm w2)
        /\ exists evs,
             trace (snd (run inputs rm w1)) = (trace w1 ++ evs)%list
             /\ trace (snd (run inputs rm w2)) = (trace w2 ++ evs)%list)
  /\ (forall inputs1 rm1 inputs2 rm2 w,
        inputs2 ∈ dom (dicts w) ->
        fst (run inputs2 rm2 (snd (run inputs1 rm1 w)))
        = fst (run inputs2 rm2 w)).

End Keyed.
Arguments Values V : clear implicits.
Arguments Obj V : clear implicits.
End SequentialChain.

(** ** [class SimpleSequentialChain] *)

Module SimpleSequentialChain.

Definition newline : string := String (ascii_of_nat 10) EmptyString.

(** The fields of an instance; [verbose] is inherited from [Chain]. *)
Record Obj : Type := mkObj {
  chains : list (Chain string);
  strip_outputs : bool;
  input_key : string;
  output_key : string;
  verbose : bool
}.

(** The [for chain in self.chains] loop of the after-validator. *)
Fixpoint validate_each (chains : list (Chain string)) : result unit :=
  match chains with
  | [] => Ok tt
  | chain :: chains' =>
      if decide (length (input_keys chain) ≠ 1)
      then Raise (ValueError (ArityInput (chain_str chain) (length (input_keys chain))))
      else
        if decide (length (output_keys chain) ≠ 1)
        then Raise (ValueError (ArityOutput (chain_str chain) (length (output_keys chain))))
        else validate_each chains'
  end.

Definition validate_chains (self : Obj) : result Obj :=
  validate_each (chains self);;
  Ok self.

Section Scalar.
(** [langchain_core.utils.input.get_color_mapping], which assigns a colour
    to each item it is given. *)
Variable get_color_mapping : list string -> gmap string string.

(** The loop of [_call] (lines 182-190) from position [i] on, threading
    [_input]. *)
Fixpoint call_steps (_run_manager : RunManager) (color_mapping : gmap string string)
    (i : nat) (chains : list (Chain string)) (_input : string)
    : M Obj string string :=
  match chains with
  | [] => mret _input
  | chain :: chains' =>
      _input ← invoke (chain_run chain
                         (get_child _run_manager (Some ("step_" ++ str (i + 1))))
                         _input);
      strip_outputs ← get_attr strip_outputs;
      let _input := if (strip_outputs : bool) then strip _input else _input in
      color ← of_result (getitem color_mapping (str i));
      verbose ← get_attr verbose;
      emit [EvText _run_manager _input color newline verbose];;
      call_steps _run_manager color_mapping (S i) chains' _input
  end.

Definition _call (inputs : positive) (run_manager : option RunManager)
    : M Obj string (gmap string string) :=
  let _run_manager := or_noop run_manager in
  d ← dict_read inputs;
  input_key ← get_attr input_key;
  _input ← of_result (getitem d input_key);
  n ← get_attr (fun self => length (chains self));
  let color_mapping := get_color_mapping (str <$> seq 0 n) in
  chains ← get_attr chains;
  _input ← call_steps _run_manager color_mapping 0 chains _input;
  output_key ← get_attr output_key;
  mret ({[ output_key := _input ]} : gmap string string).

Fixpoint acall_steps (_run_manager : RunManager) (color_mapping : gmap string string)
    (i : nat) (chains : list (Chain string)) (_input : string)
    : AM Obj string string :=
  match chains with
  | [] => mret _input
  | chain :: chains' =>
      _input ← awaiting (chain_arun chain
                           (get_child _run_manager (Some ("step_" ++ str (i + 1))))
                           _input);
      strip_outputs ← lift (get_attr strip_outputs);
      let _input := if (strip_outputs : bool) then strip _input else _input in
      color ← lift (of_result (getitem color_mapping (str i)));
      verbose ← lift (get_attr verbose);
      async_emit [EvText _run_manager _input color newline verbose];;
      acall_steps _run_manager color_mapping (S i) chains' _input
  end.

Definition _acall (inputs : positive) (run_manager : option RunManager)
    : AM Obj string (gmap string string) :=
  let _run_manager := or_noop run_manager in
  d ← lift (dict_read inputs);
  input_key ← lift (get_attr input_key);
  _input ← lift (of_result (getitem d input_key));
  n ← lift (get_attr (fun self => length (chains self)));
  let color_mapping := get_color_mapping (str <$> seq 0 n) in
  chains ← lift (get_attr chains);
  _input ← acall_steps _run_manager color_mapping 0 chains _input;
  output_key ← lift (get_attr output_key);
  mret ({[ output_key := _input ]} : gmap string string).

(** *** The vocabulary of the specification *)

(** A step with exactly one required input and one produced output. *)
Definition arity_ok (chain : Chain string) : Prop :=
  length (input_keys chain) = 1 /\ length (output_keys chain) = 1.

(** The arity error naming [chain] and its actual arity. *)
Definition arity_error (chain : Chain string) : exn :=
  if decide (length (input_keys chain) ≠ 1)
  then ValueError (ArityInput (chain_str chain) (length (input_keys chain)))
  else ValueError (ArityOutput (chain_str chain) (length (output_keys chain))).

Definition is_arity_error (e : exn) : Prop :=
  exists name n, e = ValueError (ArityInput name n)
                 \/ e = ValueError (ArityOutput name n).

(** Trimming, when the flag asks for it. *)
Definition trimmed (strip_outputs : bool) (s : string) : string :=
  if strip_outputs then strip s else s.

(** The left-to-right composition of the steps, [f chain] being the
    function step [chain] computes, each value trimmed after its step when
    the flag is set. *)
Definition composition (strip_outputs : bool)
    (f : Chain string -> string -> string)
    (chains : list (Chain string)) (x : string) : string :=
  fold_left (fun current chain => trimmed strip_outputs (f chain current)) chains x.

(** The notifications of a run from position [i] on: what each step sends
    through its child manager tagged [step_<i+1>], then the intermediate
    value reported to the observer in the colour of position [i]. *)
Fixpoint notifications (self : Obj) (_run_manager : RunManager)
    (color_mapping : gmap string string)
    (f : Chain string -> string -> string)
    (i : nat) (chains : list (Chain string)) (x : string) : list Event :=
  match chains with
  | [] => []
  | chain :: chains' =>
      let y := trimmed (strip_outputs self) (f chain x) in
      let callbacks := get_child _run_manager (Some ("step_" ++ str (i + 1))) in
      (fst (chain_run chain callbacks x)
       ++ [EvText _run_manager y (default "" (color_mapping !! str i))
                  newline (verbose self)]
       ++ notifications self _run_manager color_mapping f (S i) chains' y)%list
  end.

(** Every step returns: [f chain x] is the value of [chain.run(x)]. *)
Definition steps_return (chains : list (Chain string))
    (f : Chain string -> string -> string) : Prop :=
  forall chain callbacks x, chain ∈ chains ->
    snd (chain_run chain callbacks x) = Ok (f chain x).

(** [get_color_mapping] gives every item a colour. *)
Definition colors_total : Prop :=
  forall items k, k ∈ items -> is_Some (get_color_mapping items !! k).

End Scalar.
End SimpleSequentialChain.

(** ** Concrete steps and pipelines

    Small instances on which the definitions above are evaluated. *)

Module Examples.
Import SequentialChain.

(** A keyed step over integer values: it needs its input keys (those its
    own memory does not resolve) in the dictionary it is given, reports
    its name through its callbacks and returns a fixed dictionary. *)
Definition keyed_step (name : string) (ins outs : list string)
    (mem : option BaseMemory) (produces : gmap string Z) : Chain Z :=
  let call := fun (cb : Callbacks) (d : gmap string Z) =>
    if decide (Forall (fun k => k ∈ dom d
                         \/ k ∈ from_option memory_variables [] mem) ins)
    then ([EvStep cb name], Ok produces)
    else ([], Raise (StepError name)) in
  mkChain name ins outs mem
          call
          (fun cb d => Later (Now (call cb d)))
          (fun _ v => ([], Ok v))
          (fun _ v => Now ([], Ok v)).

Definition step1 : Chain Z := keyed_step "step1" ["a"] ["b"] None {[ "b" := 2%Z ]}.
Definition step2 : Chain Z := keyed_step "step2" ["b"] ["c"] None {[ "c" := 3%Z ]}.

(** [SequentialChain(chains=[step1, step2], input_variables=["a"])]. *)
Definition two_steps : Values Z :=
  mkValues [step1; step2] ["a"] None None None.

Definition two_steps_all : Values Z :=
  mkValues [step1; step2] ["a"] None None (Some true).


(** No steps at all, nothing declared. *)
Definition no_steps : Values Z :=
  mkValues [] ["a"] None None None.

(** The second step asks for a name nobody provides. *)
Definition needs_x : Chain Z := keyed_step "needs_x" ["b"; "x"] ["c"] None {[ "c" := 3%Z ]}.
Definition missing_x : Values Z :=
  mkValues [step1; needs_x] ["a"] None None None.

(** The second step produces a name that is already known. *)
Definition again_b : Chain Z := keyed_step "again_b" ["a"] ["b"] None {[ "b" := 5%Z ]}.
Definition duplicate_b : Values Z :=
  mkValues [step1; again_b] ["a"] None None None.

(** A pipeline-level memory whose key is also an input variable. *)
Definition overlapping : Values Z :=
  mkValues [needs_x] ["a"] (Some (mkMemory ["a"])) None None.

(** The same memory over an empty step list. *)
Definition overlapping_no_steps : Values Z :=
  mkValues [] ["a"] (Some (mkMemory ["a"])) None None.

(** A pipeline-level memory with key ["m"], declared as the output. *)
Definition with_memory : Values Z :=
  mkValues [step1] ["a"] (Some (mkMemory ["m"])) (Some (PyList ["m"])) None.

Definition with_memory_obj : Obj Z := mkObj [step1] ["a"] ["m"] false.

Definition two_steps_obj : Obj Z := mkObj [step1; step2] ["a"] ["c"] false.

(** A store holding the caller's dictionary [{"a": 1}] at reference 1. *)
Definition world_a1 (self : Obj Z) : World (Obj Z) Z :=
  mkWorld self {[ 1%positive := {[ "a" := 1%Z ]} ]} [].

(** A step that reads ["a"] and produces ["b"], one more. *)
Definition succ_step : Chain Z :=
  let call := fun (cb : Callbacks) (d : gmap string Z) =>
    match d !! "a" with
    | Some v => ([EvStep cb "succ"], Ok ({[ "b" := (v + 1)%Z ]} : gmap string Z))
    | None => ([], Raise (StepError "succ"))
    end in
  mkChain "succ" ["a"] ["b"] None
          call
          (fun cb d => Later (Now (call cb d)))
          (fun _ v => ([], Ok v))
          (fun _ v => Now ([], Ok v)).

Definition succ_obj : Obj Z := mkObj [succ_step] ["a"] ["b"] false.

(** A store with two caller dictionaries, [{"a": 1}] and [{"a": 7}]. *)
Definition two_callers : World (Obj Z) Z :=
  mkWorld succ_obj
          {[ 1%positive := {[ "a" := 1%Z ]}; 2%positive := {[ "a" := 7%Z ]} ]} [].

(** Scalar steps: a function on strings, reported under the step's name. *)
Definition scalar_step (name : string) (ins outs : list string)
    (f : string -> string) : Chain string :=
  let call := fun (cb : Callbacks) (d : gmap string string) =>
    match ins with
    | [k] =>
        match d !! k, outs with
        | Some x, [o] => ([EvStep cb name], Ok ({[ o := f x ]} : gmap string string))
        | _, _ => ([], Raise (StepError name))
        end
    | _ => ([], Raise (StepError name))
    end in
  let run := fun (cb : Callbacks) (x : string) => ([EvStep cb name], Ok (f x)) in
  mkChain name ins outs None
          call
          (fun cb d => Later (Now (call cb d)))
          run
          (fun cb x => Later (Later (Now (run cb x)))).

Definition upper (a : ascii) : ascii :=
  let n := nat_of_ascii a in
  if ((97 <=? n) && (n <=? 122))%nat then ascii_of_nat (n - 32) else a.

Fixpoint uppercase_string (s : string) : string :=
  match s with
  | EmptyString => EmptyString
  | String a s' => String (upper a) (uppercase_string s')
  end.

Fixpoint reverse_string (s : string) : string :=
  match s with
  | EmptyString => EmptyString
  | String a s' => reverse_string s' ++ String a EmptyString
  end.

Definition uppercase : Chain string :=
  scalar_step "uppercase" ["text"] ["upper"] uppercase_string.
Definition reverse : Chain string :=
  scalar_step "reverse" ["word"] ["reversed"] reverse_string.

(** A step declaring two inputs, and one declaring no output. *)
Definition two_inputs : Chain string :=
  scalar_step "two_inputs" ["x"; "y"] ["z"] (fun s => s).
Definition no_output : Chain string :=
  scalar_step "no_output" ["x"] [] (fun s => s).

Definition bad_arity : SimpleSequentialChain.Obj :=
  SimpleSequentialChain.mkObj [uppercase; two_inputs; no_output]
                              false "input" "output" false.

(** The function each of the example steps computes. *)
Definition example_function (chain : Chain string) (x : string) : string :=
  match snd (chain_run chain (mkCallbacks NoopManager None) x) with
  | Ok y => y
  | Raise _ => x
  end.

(** A colour table that cycles through five colours by position. *)
Definition palette : list string := ["blue"; "yellow"; "pink"; "green"; "red"].

Definition cycling_colors (items : list string) : gmap string string :=
  list_to_map (imap (fun i item => (item, default "" (palette !! (i mod 5)))) items).

Definition upper_then_reverse (strip_outputs : bool) : SimpleSequentialChain.Obj :=
  SimpleSequentialChain.mkObj [uppercase; reverse] strip_outputs "input" "output" false.

(** A store holding the caller's dictionary [{"input": " hi "}] at
    reference 1. *)
Definition world_hi (self : SimpleSequentialChain.Obj)
    : World SimpleSequentialChain.Obj string :=
  mkWorld self {[ 1%positive := {[ "input" := " hi " ]} ]} [].
End Examples.


(** ** The key properties of the two classes *)

Module SequentialChainKeys.
Section Keys.
Context {V : Type}.

(** [SequentialChain.input_keys] (lines 29-35). *)
Definition input_keys (self : SequentialChain.Obj V) : list string :=
  SequentialChain.input_variables self.

(** [SequentialChain.output_keys] (lines 37-43). *)
Definition output_keys (self : SequentialChain.Obj V) : list string :=
  SequentialChain.output_variables self.
End Keys.
End SequentialChainKeys.

Module SimpleSequentialChainKeys.

(** [SimpleSequentialChain.input_keys] (lines 140-146). *)
Definition input_keys (self : SimpleSequentialChain.Obj) : list string :=
  [SimpleSequentialChain.input_key self].

(** [SimpleSequentialChain.output_keys] (lines 148-154). *)
Definition output_keys (self : SimpleSequentialChain.Obj) : list string :=
  [SimpleSequentialChain.output_key self].
End SimpleSequentialChainKeys.

(** ** Strings without whitespace at either end *)


(** ** Further concrete pipelines *)

Module MoreExamples.
Import Examples.

(** What constructing [two_steps_all] gives. *)
Definition two_steps_all_obj : SequentialChain.Obj Z :=
  SequentialChain.mkObj [step1; step2] ["a"]
    (SequentialChain.names_list (SequentialChain.PySet (list_to_set ["b"; "c"])))
    true.

(** A keyed pipeline whose second step lacks an input and raises. *)
Definition raising_obj : SequentialChain.Obj Z :=
  SequentialChain.mkObj [step1; needs_x; step2] ["a"] ["c"] false.

(** A scalar step that always raises. *)
Definition failing : Chain string :=
  let run := fun (cb : Callbacks) (x : string) =>
    ([EvStep cb "failing"], Raise (StepError "failing") : result string) in
  mkChain "failing" ["x"] ["y"] None
          (fun cb d => ([EvStep cb "failing"], Raise (StepError "failing")))
          (fun cb d => Now ([EvStep cb "failing"], Raise (StepError "failing")))
          run
          (fun cb x => Now (run cb x)).

Definition failing_second : SimpleSequentialChain.Obj :=
  SimpleSequentialChain.mkObj [uppercase; failing; reverse]
                              false "input" "output" false.

(** A scalar pipeline that reads a key the caller does not supply. *)
Definition wrong_key : SimpleSequentialChain.Obj :=
  SimpleSequentialChain.mkObj [uppercase; reverse] false "text" "output" false.

(** A scalar pipeline without steps, trimming flag set. *)
Definition no_scalar_steps : SimpleSequentialChain.Obj :=
  SimpleSequentialChain.mkObj [] true "input" "output" false.

(** [upper_then_reverse] cut in two. *)
Definition only_upper (strip_outputs : bool) : SimpleSequentialChain.Obj :=
  SimpleSequentialChain.mkObj [uppercase] strip_outputs "input" "mid" false.
Definition only_reverse (strip_outputs : bool) : SimpleSequentialChain.Obj :=
  SimpleSequentialChain.mkObj [reverse] strip_outputs "mid" "output" false.

(** A store holding [{"mid": s}] at reference 1. *)
Definition world_mid (s : string) (self : SimpleSequentialChain.Obj)
    : World SimpleSequentialChain.Obj string :=
  mkWorld self {[ 1%positive := {[ "mid" := s ]} ]} [].

(** Scalar pipelines whose keys [uppercase] and [reverse] declare. *)
Definition inner_upper : SimpleSequentialChain.Obj :=
  SimpleSequentialChain.mkObj [] false "text" "upper" false.
Definition inner_reverse : SimpleSequentialChain.Obj :=
  SimpleSequentialChain.mkObj [] false "word" "reversed" false.
End MoreExamples.

(** * Properties *)

Local Open Scope list_scope.

(** ** Generic facts about results and suspendable bodies *)

(** Case analysis on the guard of a conditional. *)
Ltac split_guard :=
  match goal with
  | |- context [@decide ?P ?d] => destruct (@decide P d)
  end.

Tactic Notation "split_guard" "as" simple_intropattern(pat) :=
  match goal with
  | |- context [@decide ?P ?d] => destruct (@decide P d) as pat
  end.

Ltac split_guard_in H :=
  match type of H with
  | context [@decide ?P ?d] => destruct (@decide P d)
  end.

Lemma await_co_bind {A B} (f : A -> Co B) (c : Co A) :
  await (co_bind f c) = await (f (await c)).
Proof. induction c as [a | c IH]; simpl; [reflexivity | exact IH]. Qed.

(** Each operation of a suspendable body, run to completion, is its
    blocking counterpart. *)
Section RunAsync.
Context {Self V : Type}.
Implicit Types (w : World Self V).

Lemma run_async_bind {A B} (f : A -> AM Self V B) (m : AM Self V A) w :
  run_async (m ≫= f) w
  = match run_async m w with
    | (Ok a, w') => run_async (f a) w'
    | (Raise e, w') => (Raise e, w')
    end.
Proof.
  unfold run_async, mbind, AM_mbind, AM_bind.
  rewrite await_co_bind. by destruct (await (m w)) as [[a | e] w'].
Qed.

Lemma M_bind_unfold {A B} (f : A -> M Self V B) (m : M Self V A) w :
  (m ≫= f) w
  = match m w with
    | (Ok a, w') => f a w'
    | (Raise e, w') => (Raise e, w')
    end.
Proof. reflexivity. Qed.

Lemma run_async_lift {A} (m : M Self V A) w : run_async (lift m) w = m w.
Proof. reflexivity. Qed.

Lemma run_async_awaiting {A} (c : Co (list Event * result A)) w :
  run_async (awaiting c) w = invoke (Self := Self) (V := V) (await c) w.
Proof.
  unfold run_async, awaiting, invoke. by rewrite await_co_bind.
Qed.

Lemma run_async_emit evs w :
  run_async (async_emit evs) w = emit (Self := Self) (V := V) evs w.
Proof. reflexivity. Qed.

Lemma world_eta w : mkWorld (self w) (dicts w) (trace w) = w.
Proof. by destruct w. Qed.
End RunAsync.

(** ** The dependency validator of [SequentialChain] *)

Module KeyedValidation.
Import SequentialChain.
Section Facts.
Context {V : Type}.
Implicit Types (values : Values V) (chain : Chain V) (cs : list (Chain V)).
Implicit Types (K : gset string).

Lemma missing_vars_of_spec chain K :
  missing_vars_of chain K
  = list_to_set (input_keys chain) ∖ K ∖ own_memory_keys chain.
Proof.
  unfold missing_vars_of, own_memory_keys.
  destruct (memory chain); [reflexivity | set_solver].
Qed.

Lemma produced_app cs1 cs2 : produced (cs1 ++ cs2) = produced cs1 ∪ produced cs2.
Proof. unfold produced. rewrite fmap_app. apply union_list_app_L. Qed.

Lemma produced_nil : produced (@nil (Chain V)) = ∅.
Proof. reflexivity. Qed.

Lemma produced_cons chain cs :
  produced (chain :: cs) = list_to_set (output_keys chain) ∪ produced cs.
Proof. reflexivity. Qed.

(** When the loop completes, it returns the initial set grown by every
    step's outputs. *)
Lemma validate_steps_Ok cs K K' :
  validate_steps cs K = Ok K' -> K' = K ∪ produced cs.
Proof.
  revert K. induction cs as [| chain cs IH]; intros K; simpl.
  - intros [= <-]. rewrite produced_nil. set_solver.
  - repeat split_guard; try discriminate.
    intros HK%IH. rewrite HK, produced_cons. set_solver.
Qed.

Lemma validate_steps_app cs1 cs2 K :
  validate_steps (cs1 ++ cs2) K
  = K1 ← validate_steps cs1 K; validate_steps cs2 K1.
Proof.
  revert K. induction cs1 as [| chain cs1 IH]; intros K; simpl; [reflexivity |].
  repeat split_guard; try reflexivity. apply IH.
Qed.

Lemma known_set_initial values i :
  known_set values i = initial_known values ∪ produced (take i (values_chains values)).
Proof. unfold known_set, initial_known. by rewrite list_to_set_app_L. Qed.

Lemma known_set_S values i chain :
  values_chains values !! i = Some chain ->
  known_set values (S i) = known_set values i ∪ list_to_set (output_keys chain).
Proof.
  intros Hi. rewrite !known_set_initial.
  rewrite (take_S_r _ _ _ Hi), produced_app, produced_cons, produced_nil.
  set_solver.
Qed.

(** A valid prefix of the step list is accepted by the loop, which then
    holds the known-set of the next position. *)
Lemma validate_steps_prefix values i :
  i <= length (values_chains values) ->
  prefix_valid values i ->
  validate_steps (take i (values_chains values)) (initial_known values)
  = Ok (known_set values i).
Proof.
  induction i as [| i IH]; intros Hlen Hpre.
  - rewrite known_set_initial, take_0, produced_nil. simpl. f_equal. set_solver.
  - destruct (lookup_lt_is_Some_2 (values_chains values) i) as [chain Hi]; [lia |].
    rewrite (take_S_r _ _ _ Hi), validate_steps_app.
    rewrite IH; [| lia | intros j c Hj; apply Hpre; lia].
    destruct (Hpre i chain) as [Hmiss Hcol]; [lia | exact Hi |].
    unfold step_missing in Hmiss. unfold step_collisions in Hcol.
    simpl. unfold mbind, result_mbind. simpl.
    rewrite missing_vars_of_spec.
    repeat split_guard; try congruence.
    by rewrite (known_set_S _ _ _ Hi).
Qed.

Lemma memory_keys_of_disjoint values :
  memory_disjoint values ->
  memory_keys_of (values_input_variables values) (values_memory values)
  = Ok (pipeline_memory_keys values).
Proof.
  unfold memory_disjoint, memory_keys_of, pipeline_memory_keys.
  destruct (values_memory values) as [m |]; [| reflexivity].
  intros Hdis. destruct (decide _) as [Hne | Hne]; [| reflexivity].
  exfalso. apply Hne. apply set_eq. intros k. set_solver.
Qed.

Lemma memory_keys_of_overlap values m :
  values_memory values = Some m ->
  ~ memory_disjoint values ->
  memory_keys_of (values_input_variables values) (values_memory values)
  = Raise (ValueError (OverlappingMemoryKeys
             (list_to_set (values_input_variables values)
              ∩ list_to_set (memory_variables m))
             (memory_variables m))).
Proof.
  intros Hm Hov. unfold memory_keys_of. rewrite Hm.
  destruct (decide _) as [Hne | Hne]; [reflexivity |].
  exfalso. apply Hov. unfold memory_disjoint, pipeline_memory_keys. rewrite Hm.
  intros k Hk1 Hk2. apply dec_stable in Hne. set_solver.
Qed.

(** The validator, once the memory check and a valid prefix are behind. *)
Lemma validate_chains_unfold values :
  memory_disjoint values ->
  validate_chains values
  = K ← validate_steps (values_chains values) (initial_known values);
    finish_outputs values K.
Proof.
  intros Hdis. unfold validate_chains.
  rewrite (memory_keys_of_disjoint _ Hdis). reflexivity.
Qed.

Lemma validate_steps_all values :
  prefix_valid values (length (values_chains values)) ->
  validate_steps (values_chains values) (initial_known values)
  = Ok (final_known_set values).
Proof.
  intros Hpre.
  rewrite <- (firstn_all (values_chains values)) at 1.
  by apply validate_steps_prefix.
Qed.

Lemma prefix_valid_of_conditions values i :
  inputs_available values -> outputs_fresh values -> prefix_valid values i.
Proof. intros Hin Hout j chain _ Hj. split; [by eapply Hin | by eapply Hout]. Qed.

(** The first violating step decides the outcome of the loop. *)
Lemma validate_steps_first_violation values i chain :
  prefix_valid values i ->
  values_chains values !! i = Some chain ->
  validate_steps (values_chains values) (initial_known values)
  = if decide (step_missing values i chain ≠ ∅)
    then Raise (ValueError (MissingInput (step_missing values i chain)
                                         (known_set values i)))
    else if decide (step_collisions values i chain ≠ ∅)
         then Raise (ValueError (DuplicateOutput (step_collisions values i chain)))
         else validate_steps (drop (S i) (values_chains values))
                             (known_set values (S i)).
Proof.
  intros Hpre Hi.
  rewrite <- (take_drop_middle _ _ _ Hi) at 1.
  rewrite validate_steps_app, validate_steps_prefix;
    [| apply Nat.lt_le_incl; by eapply lookup_lt_Some | exact Hpre].
  simpl. unfold mbind, result_mbind. simpl.
  rewrite missing_vars_of_spec. fold (step_missing values i chain).
  fold (step_collisions values i chain).
  repeat split_guard; try reflexivity.
  by rewrite (known_set_S _ _ _ Hi).
Qed.

Lemma validate_steps_Raise cs K e :
  validate_steps cs K = Raise e -> exists msg, e = ValueError msg.
Proof.
  revert K. induction cs as [| chain cs IH]; intros K; simpl; [discriminate |].
  repeat split_guard; try (intros [= <-]; eauto; fail). apply IH.
Qed.

Lemma memory_keys_of_Raise values e :
  memory_keys_of (values_input_variables values) (values_memory values) = Raise e ->
  exists msg, e = ValueError msg.
Proof.
  unfold memory_keys_of. destruct (values_memory values); [| discriminate].
  split_guard; [| discriminate]. intros [= <-]. eauto.
Qed.

Lemma construct_Raise values e :
  validate_chains values = Raise e -> construct values = Raise e.
Proof. unfold construct. by intros ->. Qed.

Lemma construct_Ok values names :
  validate_chains values = Ok (set_output_variables values names) ->
  construct values
  = Ok (mkObj (values_chains values) (values_input_variables values)
              (names_list names) (default false (values_return_all values))).
Proof. unfold construct. by intros ->. Qed.

Lemma set_output_variables_id values names :
  values_output_variables values = Some names ->
  set_output_variables values names = values.
Proof. destruct values; simpl; by intros ->. Qed.

Lemma with_chains_id values : with_chains values (values_chains values) = values.
Proof. by destruct values. Qed.

Lemma fails_with_intro values e : validate_chains values = Raise e -> fails_with values e.
Proof. intros H. split; [exact H | by apply construct_Raise]. Qed.

(** The last phase, when the caller declared no outputs. *)
Lemma finish_outputs_inferred values K :
  values_output_variables values = None ->
  finish_outputs values K
  = if default false (values_return_all values)
    then Ok (set_output_variables values
               (PySet (K ∖ list_to_set (values_input_variables values))))
    else match last (values_chains values) with
         | Some chain => Ok (set_output_variables values (PyList (output_keys chain)))
         | None => Raise IndexError
         end.
Proof.
  intros Hnone. unfold finish_outputs. rewrite Hnone.
  destruct (default false (values_return_all values)); [reflexivity |].
  by destruct (last (values_chains values)).
Qed.

Lemma finish_outputs_declared values K names :
  values_output_variables values = Some names ->
  finish_outputs values K
  = if decide (names_set names ∖ K ≠ ∅)
    then Raise (ValueError (UnknownOutput (names_set names ∖ K)))
    else Ok values.
Proof. intros Hsome. unfold finish_outputs. by rewrite Hsome. Qed.

Lemma validate_chains_valid values :
  memory_disjoint values -> inputs_available values -> outputs_fresh values ->
  validate_chains values = finish_outputs values (final_known_set values).
Proof.
  intros Hdis Hin Hout.
  rewrite (validate_chains_unfold _ Hdis), validate_steps_all; [reflexivity |].
  by apply prefix_valid_of_conditions.
Qed.

Lemma difference_empty_subseteq (X Y : gset string) : X ∖ Y = ∅ <-> X ⊆ Y.
Proof.
  split.
  - intros HE k Hk. destruct (decide (k ∈ Y)) as [| Hn]; [done |].
    assert (k ∈ X ∖ Y) as Hd by set_solver. rewrite HE in Hd. set_solver.
  - intros Hs. apply set_eq. set_solver.
Qed.

(** C1 (amended). If (i) the pipeline-level memory keys are disjoint from
    the input variables, (ii) at every position the step's required inputs
    minus its own memory keys lie in the known-set there, (iii) no step
    produces a name of the known-set at its position, (iv) declared output
    variables lie in the final known-set, and moreover the step list is
    non-empty or the outputs are declared or [return_all] is set, then
    construction succeeds and the output names are the ones
    [expected_output_names] fixes. *)
Theorem construction_succeeds values :
  memory_disjoint values ->
  inputs_available values ->
  outputs_fresh values ->
  declared_known values ->
  (values_chains values ≠ [] \/ is_Some (values_output_variables values)
   \/ values_return_all values = Some true) ->
  exists names,
    expected_output_names values = Some names
    /\ validate_chains values = Ok (set_output_variables values names)
    /\ construct values
       = Ok (mkObj (values_chains values) (values_input_variables values)
                   (names_list names) (default false (values_return_all values))).
Proof.
  intros Hdis Hin Hout Hdecl Hcase.
  assert (exists names,
             expected_output_names values = Some names
             /\ validate_chains values = Ok (set_output_variables values names))
    as (names & Hexp & Hval).
  { rewrite (validate_chains_valid _ Hdis Hin Hout).
    unfold expected_output_names.
    destruct (values_output_variables values) as [names |] eqn:Hov.
    - exists names. split; [reflexivity |].
      rewrite (finish_outputs_declared _ _ _ Hov).
      split_guard as [Hne | _].
      + exfalso. apply Hne. apply difference_empty_subseteq. by apply Hdecl.
      + by rewrite set_output_variables_id.
    - rewrite (finish_outputs_inferred _ _ Hov).
      destruct (default false (values_return_all values)) eqn:Hall.
      + eexists. split; reflexivity.
      + destruct (last (values_chains values)) as [chain |] eqn:Hlast.
        * eexists. split; reflexivity.
        * exfalso. apply last_None in Hlast.
          destruct Hcase as [Hne | [[x Hx] | Hra]];
            [done | discriminate | rewrite Hra in Hall; discriminate]. }
  exists names. split; [exact Hexp |]. split; [exact Hval |].
  by apply construct_Ok.
Qed.

(** C2 (amended). When the pipeline-level memory keys (if any) are disjoint
    from the input variables, the first step that violates a condition
    decides the error: if it lacks inputs, construction fails with the
    missing-input error carrying exactly the missing names and the known-set
    at that step; if it lacks none but produces known names, construction
    fails with the duplicate-output error carrying exactly the colliding
    names. *)
Theorem first_violation_decides values i chain :
  memory_disjoint values ->
  prefix_valid values i ->
  values_chains values !! i = Some chain ->
  (step_missing values i chain ≠ ∅ ->
     fails_with values
       (ValueError (MissingInput (step_missing values i chain) (known_set values i))))
  /\ (step_missing values i chain = ∅ ->
      step_collisions values i chain ≠ ∅ ->
      fails_with values
        (ValueError (DuplicateOutput (step_collisions values i chain)))).
Proof.
  intros Hdis Hpre Hi.
  pose proof (validate_steps_first_violation _ _ _ Hpre Hi) as Hloop.
  split.
  - intros Hmiss. apply fails_with_intro.
    rewrite (validate_chains_unfold _ Hdis), Hloop.
    destruct (decide (step_missing values i chain ≠ ∅)); [reflexivity | done].
  - intros Hmiss Hcol. apply fails_with_intro.
    rewrite (validate_chains_unfold _ Hdis), Hloop.
    destruct (decide (step_missing values i chain ≠ ∅)); [done |].
    destruct (decide (step_collisions values i chain ≠ ∅)); [reflexivity | done].
Qed.

Lemma final_known_set_all values :
  final_known_set values = initial_known values ∪ produced (values_chains values).
Proof.
  unfold final_known_set. by rewrite known_set_initial, firstn_all.
Qed.

(** What a successful validation went through. *)
Lemma validate_chains_Ok_inv values values' :
  validate_chains values = Ok values' ->
  memory_disjoint values
  /\ finish_outputs values (final_known_set values) = Ok values'.
Proof.
  unfold validate_chains. intros Hv.
  destruct (memory_keys_of _ _) as [mk | e] eqn:Hmem; [| discriminate].
  assert (memory_disjoint values /\ mk = pipeline_memory_keys values)
    as [Hdis Hmk].
  { revert Hmem. unfold memory_keys_of, memory_disjoint, pipeline_memory_keys.
    destruct (values_memory values) as [m |].
    - destruct (decide _) as [| Hempty]; [discriminate |].
      intros [= <-]. split; [| reflexivity].
      apply dec_stable in Hempty. intros k Hk1 Hk2.
      assert (k ∈ (∅ : gset string)) as Hin; [| set_solver].
      rewrite <- Hempty. set_solver.
    - intros [= <-]. split; [| reflexivity].
      intros k _ Hk. by apply elem_of_nil in Hk. }
  subst mk. split; [exact Hdis |]. cbn in Hv.
  fold (initial_known values) in Hv.
  destruct (validate_steps _ _) as [K' | e] eqn:Hsteps; [| discriminate].
  apply validate_steps_Ok in Hsteps. cbn in Hv.
  by rewrite final_known_set_all, <- Hsteps.
Qed.


(** C6. When the pipeline-level memory shares a key with the input
    variables, construction fails with the overlapping-memory-keys error,
    whatever the step list is: no step is looked at. *)
Theorem overlapping_memory_keys_first values m :
  values_memory values = Some m ->
  (exists k, k ∈ values_input_variables values /\ k ∈ memory_variables m) ->
  let e := ValueError (OverlappingMemoryKeys
                         (list_to_set (values_input_variables values)
                          ∩ list_to_set (memory_variables m))
                         (memory_variables m)) in
  fails_with values e
  /\ forall cs, fails_with (with_chains values cs) e.
Proof.
  intros Hm (k & Hk1 & Hk2) e.
  assert (forall cs, fails_with (with_chains values cs) e) as Hall.
  { intros cs. apply fails_with_intro. unfold validate_chains.
    rewrite (memory_keys_of_overlap (with_chains values cs) m); [reflexivity | exact Hm |].
    intros Hdis. apply (Hdis k); [exact Hk1 |].
    unfold pipeline_memory_keys. simpl. by rewrite Hm. }
  split; [| exact Hall].
  rewrite <- (with_chains_id values). apply Hall.
Qed.

(** C10 (amended). With an empty step list, no declared outputs,
    [return_all] unset or false and pipeline-level memory keys (if any)
    disjoint from the input variables, construction ends in the index error
    of [chains[-1]]; with a non-empty step list the validator never raises
    an index error. *)
Theorem last_step_access values :
  (values_chains values = [] ->
   values_output_variables values = None ->
   default false (values_return_all values) = false ->
   memory_disjoint values ->
   fails_with values IndexError)
  /\ (values_chains values ≠ [] -> validate_chains values ≠ Raise IndexError).
Proof.
  split.
  - intros Hnil Hov Hall Hdis. apply fails_with_intro.
    rewrite (validate_chains_unfold _ Hdis), Hnil. simpl.
    unfold mbind, result_mbind. simpl.
    by rewrite (finish_outputs_inferred _ _ Hov), Hall, Hnil.
  - intros Hne Hraise. unfold validate_chains in Hraise.
    destruct (memory_keys_of _ _) as [mk | e] eqn:Hmem.
    + simpl in Hraise. unfold mbind, result_mbind in Hraise. simpl in Hraise.
      destruct (validate_steps _ _) as [K | e] eqn:Hsteps; simpl in Hraise.
      * unfold finish_outputs in Hraise.
        destruct (values_output_variables values).
        -- split_guard_in Hraise; discriminate.
        -- destruct (default false (values_return_all values)); [discriminate |].
           destruct (last (values_chains values)) eqn:Hlast; [discriminate |].
           by apply last_None in Hlast.
      * injection Hraise as ->.
        apply validate_steps_Raise in Hsteps as [? ?]. discriminate.
    + simpl in Hraise. injection Hraise as ->.
      apply memory_keys_of_Raise in Hmem as [? ?]. discriminate.
Qed.
End Facts.
End KeyedValidation.

(** ** The validator on concrete pipelines *)

Module KeyedValidationExamples.
Import SequentialChain Examples KeyedValidation.

(** Settles a per-position condition of a concrete step list, one position
    after the other. *)
Ltac by_position tac :=
  let i := fresh "i" in
  let chain := fresh "chain" in
  let Hi := fresh "Hi" in
  intros i chain Hi;
  repeat (destruct i as [| i]; [injection Hi as <-; tac |]; simpl in Hi);
  try discriminate Hi.

Ltac no_memory :=
  let Hk := fresh "Hk" in
  intros ? _ Hk; vm_compute in Hk; inversion Hk.

Ltac nothing_declared :=
  let Hn := fresh "Hn" in
  intros ? Hn; discriminate Hn.

Ltac evaluate := vm_compute; reflexivity.



Lemma construction_succeeds_witness :
  exists names,
    expected_output_names two_steps = Some names
    /\ validate_chains two_steps = Ok (set_output_variables two_steps names)
    /\ construct two_steps
       = Ok (mkObj (values_chains two_steps) (values_input_variables two_steps)
                   (names_list names)
                   (default false (values_return_all two_steps))).
Proof.
  apply (construction_succeeds two_steps).
  - no_memory.
  - by_position evaluate.
  - by_position evaluate.
  - nothing_declared.
  - left. discriminate.
Defined.

(** C1, as stated, fails on the empty step list: all four conditions hold
    and yet construction ends in an index error. *)
Lemma empty_step_list_not_constructed :
  memory_disjoint no_steps
  /\ inputs_available no_steps
  /\ outputs_fresh no_steps
  /\ declared_known no_steps
  /\ validate_chains no_steps = Raise IndexError
  /\ construct no_steps = Raise IndexError.
Proof.
  split; [no_memory |].
  split; [by_position evaluate |].
  split; [by_position evaluate |].
  split; [nothing_declared |].
  split; reflexivity.
Qed.

Lemma first_violation_decides_witness :
  fails_with missing_x
    (ValueError (MissingInput (step_missing missing_x 1 needs_x)
                              (known_set missing_x 1)))
  /\ fails_with duplicate_b
       (ValueError (DuplicateOutput (step_collisions duplicate_b 1 again_b))).
Proof.
  split.
  - apply (first_violation_decides missing_x 1 needs_x).
    + no_memory.
    + intros j chain Hj Hi. destruct j; [| lia].
      injection Hi as <-. split; evaluate.
    + reflexivity.
    + vm_compute. discriminate.
  - apply (first_violation_decides duplicate_b 1 again_b).
    + no_memory.
    + intros j chain Hj Hi. destruct j; [| lia].
      injection Hi as <-. split; evaluate.
    + reflexivity.
    + evaluate.
    + vm_compute. discriminate.
Defined.

(** C2, as stated, fails when the pipeline-level memory shares a key with
    the input variables: the first step lacks inputs, and construction
    fails with the overlapping-memory-keys error instead of the
    missing-input error. *)
Lemma memory_overlap_before_missing_input :
  values_chains overlapping !! 0 = Some needs_x
  /\ step_missing overlapping 0 needs_x ≠ ∅
  /\ validate_chains overlapping
     = Raise (ValueError (OverlappingMemoryKeys
                            (list_to_set ["a"] ∩ list_to_set ["a"]) ["a"]))
  /\ validate_chains overlapping
     ≠ Raise (ValueError (MissingInput (step_missing overlapping 0 needs_x)
                                       (known_set overlapping 0))).
Proof.
  split; [reflexivity |].
  split; [vm_compute; discriminate |].
  assert (validate_chains overlapping
          = Raise (ValueError (OverlappingMemoryKeys
                                 (list_to_set ["a"] ∩ list_to_set ["a"]) ["a"])))
    as Hraise by evaluate.
  split; [exact Hraise |]. rewrite Hraise. discriminate.
Qed.

(** C10, as stated, fails in the same situation: with an empty step list,
    nothing declared and [return_all] unset, construction fails with the
    overlapping-memory-keys error, not with an index error. *)
Lemma memory_overlap_before_index_error :
  values_chains overlapping_no_steps = []
  /\ values_output_variables overlapping_no_steps = None
  /\ default false (values_return_all overlapping_no_steps) = false
  /\ validate_chains overlapping_no_steps
     = Raise (ValueError (OverlappingMemoryKeys
                            (list_to_set ["a"] ∩ list_to_set ["a"]) ["a"]))
  /\ validate_chains overlapping_no_steps ≠ Raise IndexError.
Proof.
  split; [reflexivity |]. split; [reflexivity |]. split; [reflexivity |].
  assert (validate_chains overlapping_no_steps
          = Raise (ValueError (OverlappingMemoryKeys
                                 (list_to_set ["a"] ∩ list_to_set ["a"]) ["a"])))
    as Hraise by evaluate.
  split; [exact Hraise |]. rewrite Hraise. discriminate.
Qed.


Lemma overlapping_memory_keys_first_witness :
  fails_with overlapping
    (ValueError (OverlappingMemoryKeys
                   (list_to_set ["a"] ∩ list_to_set ["a"]) ["a"]))
  /\ fails_with (with_chains overlapping [step1; step2])
       (ValueError (OverlappingMemoryKeys
                      (list_to_set ["a"] ∩ list_to_set ["a"]) ["a"])).
Proof.
  destruct (overlapping_memory_keys_first overlapping (mkMemory ["a"]))
    as [Hhere Hall].
  - reflexivity.
  - exists "a". split; apply list_elem_of_In; simpl; tauto.
  - split; [exact Hhere | exact (Hall [step1; step2])].
Defined.

Lemma last_step_access_witness :
  fails_with no_steps IndexError
  /\ validate_chains two_steps ≠ Raise IndexError.
Proof.
  split.
  - apply (proj1 (last_step_access no_steps));
      [reflexivity | reflexivity | reflexivity | no_memory].
  - apply (proj2 (last_step_access two_steps)). discriminate.
Defined.
End KeyedValidationExamples.

(** ** The structural check of [SimpleSequentialChain] *)

Module ScalarValidation.
Import SimpleSequentialChain.

(** The loop stops at the first step that is not one-in one-out and raises
    that step's arity error. *)
Lemma validate_each_spec (cs : list (Chain string)) :
  (Forall arity_ok cs /\ validate_each cs = Ok tt)
  \/ (exists before chain after,
         cs = before ++ chain :: after
         /\ Forall arity_ok before
         /\ ~ arity_ok chain
         /\ validate_each cs = Raise (arity_error chain)).
Proof.
  induction cs as [| chain cs IH]; simpl.
  - left. split; [constructor | reflexivity].
  - unfold arity_error.
    destruct (decide (length (input_keys chain) ≠ 1)) as [Hin | Hin].
    + right. exists [], chain, cs. simpl.
      split; [reflexivity |]. split; [constructor |].
      split; [unfold arity_ok; tauto |].
      destruct (decide (length (input_keys chain) ≠ 1)); [reflexivity | done].
    + destruct (decide (length (output_keys chain) ≠ 1)) as [Hout | Hout].
      * right. exists [], chain, cs. simpl.
        split; [reflexivity |]. split; [constructor |].
        split; [unfold arity_ok; tauto |].
        destruct (decide (length (input_keys chain) ≠ 1)); [done |].
        reflexivity.
      * assert (arity_ok chain) as Hok.
        { unfold arity_ok. split; by apply dec_stable. }
        destruct IH as [[Hall Hv] | (before & c & after & -> & Hall & Hbad & Hv)].
        -- left. split; [by constructor | exact Hv].
        -- right. exists (chain :: before), c, after.
           split; [reflexivity |]. split; [by constructor |]. by split.
Qed.

Lemma arity_error_is_arity_error chain : is_arity_error (arity_error chain).
Proof.
  unfold is_arity_error, arity_error.
  destruct (decide _); eauto.
Qed.

(** C7. The structural check fails, with an arity error, exactly when some
    step does not have one input key and one output key; the error names
    the first such step and the arity that is off; with one-in one-out
    steps it succeeds, whatever the key names are. *)
Theorem arity_check (self : Obj) :
  ((exists e, validate_chains self = Raise e /\ is_arity_error e)
     <-> exists chain, chain ∈ chains self /\ ~ arity_ok chain)
  /\ (forall e, validate_chains self = Raise e ->
        exists before chain after,
          chains self = before ++ chain :: after
          /\ Forall arity_ok before
          /\ ~ arity_ok chain
          /\ e = arity_error chain)
  /\ (Forall arity_ok (chains self) <-> validate_chains self = Ok self).
Proof.
  unfold validate_chains.
  destruct (validate_each_spec (chains self))
    as [[Hall Hv] | (before & chain & after & Hsplit & Hall & Hbad & Hv)];
    rewrite Hv; simpl.
  - split; [| split].
    + split.
      * intros (e & He & _). discriminate.
      * intros (chain & Hin & Hbad). exfalso. apply Hbad.
        by apply (proj1 (Forall_forall _ _) Hall).
    + intros e He. discriminate.
    + split; [reflexivity | intros _; exact Hall].
  - split; [| split].
    + split.
      * intros _. exists chain. split; [| exact Hbad].
        rewrite Hsplit. apply elem_of_app. right. apply list_elem_of_here.
      * intros _. exists (arity_error chain).
        split; [reflexivity | apply arity_error_is_arity_error].
    + intros e [= <-]. exists before, chain, after. by repeat split.
    + split; [| discriminate].
      intros Hok. exfalso. apply Hbad.
      apply (proj1 (Forall_forall _ _) Hok).
      rewrite Hsplit. apply elem_of_app. right. apply list_elem_of_here.
Qed.

Lemma arity_check_witness :
  validate_chains (Examples.upper_then_reverse false)
  = Ok (Examples.upper_then_reverse false)
  /\ (exists e, validate_chains Examples.bad_arity = Raise e /\ is_arity_error e)
  /\ validate_chains Examples.bad_arity
     = Raise (ValueError (ArityInput "two_inputs" 2)).
Proof.
  split; [| split].
  - apply (proj2 (proj2 (arity_check (Examples.upper_then_reverse false)))).
    repeat constructor.
  - apply (proj1 (arity_check Examples.bad_arity)).
    exists Examples.two_inputs. split.
    + apply list_elem_of_In. simpl. tauto.
    + intros [Hin _]. discriminate Hin.
  - reflexivity.
Defined.
End ScalarValidation.

(** ** Invocation of [SequentialChain] *)

Module KeyedExecution.
Import SequentialChain KeyedValidation.
Section Facts.
Context {V : Type}.
Implicit Types (w : World (Obj V) V) (chain : Chain V) (cs : list (Chain V)).
Implicit Types (acc d : gmap string V) (values : Values V) (obj : Obj V).
Implicit Types
  (form other : Chain V -> Callbacks -> gmap string V
          -> list Event * result (gmap string V)).

(** The loop of [_call] threads the dictionary behind [l]. *)
Lemma call_steps_thread cs l rm i w acc :
  dicts w !! l = Some acc ->
  call_steps l rm i cs w
  = let '(evs, acc', e) := thread blocking_form (get_child rm None) cs acc in
    (match e with Some e => Raise e | None => Ok tt end,
     mkWorld (self w) (<[l := acc']> (dicts w)) (trace w ++ evs)).
Proof.
  revert i w acc. induction cs as [| chain cs IH]; intros i w acc Hl.
  - simpl. rewrite app_nil_r, (insert_id _ _ _ Hl), world_eta. reflexivity.
  - cbn [call_steps thread]. rewrite M_bind_unfold.
    unfold dict_read at 1. rewrite Hl. rewrite M_bind_unfold.
    unfold invoke at 1, blocking_form at 1.
    destruct (chain_call chain (get_child rm None) acc) as [evs [outputs | e]];
      cbn [fst snd].
    + rewrite M_bind_unfold. unfold dict_update at 1. cbn [dicts self trace].
      rewrite Hl.
      rewrite (IH (S i) _ (outputs ∪ acc)); [| cbn; apply lookup_insert_eq].
      destruct (thread blocking_form (get_child rm None) cs (outputs ∪ acc))
        as [[evs' acc'] e].
      cbn [dicts self trace]. by rewrite insert_insert_eq, app_assoc.
    + by rewrite (insert_id _ _ _ Hl).
Qed.

(** The loop of [_acall] does the same with the awaited forms. *)
Lemma acall_steps_thread cs l cb i w acc :
  dicts w !! l = Some acc ->
  run_async (acall_steps l cb i cs) w
  = let '(evs, acc', e) := thread awaited_form cb cs acc in
    (match e with Some e => Raise e | None => Ok tt end,
     mkWorld (self w) (<[l := acc']> (dicts w)) (trace w ++ evs)).
Proof.
  revert i w acc. induction cs as [| chain cs IH]; intros i w acc Hl.
  - simpl. rewrite app_nil_r, (insert_id _ _ _ Hl), world_eta. reflexivity.
  - cbn [acall_steps thread]. rewrite run_async_bind, run_async_lift.
    unfold dict_read at 1. rewrite Hl.
    rewrite run_async_bind, run_async_awaiting.
    unfold invoke at 1, awaited_form at 1.
    destruct (await (chain_acall chain cb acc)) as [evs [outputs | e]];
      cbn [fst snd].
    + rewrite run_async_bind, run_async_lift.
      unfold dict_update at 1. cbn [dicts self trace]. rewrite Hl.
      rewrite (IH (S i) _ (outputs ∪ acc)); [| cbn; apply lookup_insert_eq].
      destruct (thread awaited_form cb cs (outputs ∪ acc)) as [[evs' acc'] e].
      cbn [dicts self trace]. by rewrite insert_insert_eq, app_assoc.
    + by rewrite (insert_id _ _ _ Hl).
Qed.

Lemma fresh_not_allocated w : dicts w !! fresh (dom (dicts w)) = None.
Proof. apply not_elem_of_dom. apply is_fresh. Qed.

(** [_call] is the invocation of the specification with blocking steps. *)
Lemma _call_invocation inputs run_manager w :
  _call inputs run_manager w = invocation blocking_form inputs run_manager w.
Proof.
  unfold _call, invocation. rewrite M_bind_unfold. unfold dict_copy at 1.
  destruct (dicts w !! inputs) as [d |] eqn:Hin; [| reflexivity].
  rewrite M_bind_unfold. unfold get_attr at 1. cbn [self].
  rewrite M_bind_unfold.
  rewrite (call_steps_thread _ _ _ _ _ d); [| cbn; apply lookup_insert_eq].
  destruct (thread blocking_form _ _ d) as [[evs acc] [e |]];
    cbn [dicts self trace]; rewrite insert_insert_eq; [reflexivity |].
  rewrite M_bind_unfold. unfold get_attr at 1. cbn [self].
  rewrite M_bind_unfold. unfold dict_read at 1. cbn [dicts].
  rewrite lookup_insert_eq. reflexivity.
Qed.

(** [_acall], awaited, is the invocation of the specification with the
    suspendable steps awaited. *)
Lemma _acall_invocation inputs run_manager w :
  run_async (_acall inputs run_manager) w
  = invocation awaited_form inputs run_manager w.
Proof.
  unfold _acall, invocation. rewrite run_async_bind, run_async_lift.
  unfold dict_copy at 1.
  destruct (dicts w !! inputs) as [d |] eqn:Hin; [| reflexivity].
  rewrite run_async_bind, run_async_lift. unfold get_attr at 1. cbn [self].
  rewrite run_async_bind.
  rewrite (acall_steps_thread _ _ _ _ _ d); [| cbn; apply lookup_insert_eq].
  destruct (thread awaited_form _ _ d) as [[evs acc] [e |]];
    cbn [dicts self trace]; rewrite insert_insert_eq; [reflexivity |].
  rewrite run_async_bind, run_async_lift. unfold get_attr at 1. cbn [self].
  rewrite run_async_bind, run_async_lift. unfold dict_read at 1. cbn [dicts].
  rewrite lookup_insert_eq. reflexivity.
Qed.

Lemma thread_ext form other cb cs acc :
  (forall chain d, chain ∈ cs -> form chain cb d = other chain cb d) ->
  thread form cb cs acc = thread other cb cs acc.
Proof.
  revert acc. induction cs as [| chain cs IH]; intros acc Hagree; [reflexivity |].
  cbn [thread]. rewrite (Hagree chain acc); [| apply list_elem_of_here].
  destruct (other chain cb acc) as [evs [outputs | e]]; [| reflexivity].
  rewrite IH; [reflexivity |].
  intros c d Hc. apply Hagree. by apply list_elem_of_further.
Qed.

(** Blocking and awaited invocation agree when the steps' forms do. *)
Lemma keyed_modes_agree inputs run_manager w :
  (forall chain callbacks d, chain ∈ chains (self w) ->
     await (chain_acall chain callbacks d) = chain_call chain callbacks d) ->
  run_async (_acall inputs run_manager) w = _call inputs run_manager w.
Proof.
  intros Hagree. rewrite _acall_invocation, _call_invocation.
  unfold invocation. destruct (dicts w !! inputs) as [d |]; [| reflexivity].
  rewrite (thread_ext awaited_form blocking_form); [reflexivity |].
  intros chain d' Hc. unfold awaited_form, blocking_form. by apply Hagree.
Qed.

(** Any invocation, whatever the form of the steps, is isolated. *)
Lemma invocation_isolated form : isolated (invocation form).
Proof.
  split; [| split].
  - intros inputs rm w. unfold invocation.
    destruct (dicts w !! inputs) as [d |]; cbn zeta.
    + destruct (thread form _ _ d) as [[evs acc] e]. cbn [snd self dicts].
      split; [reflexivity |]. split.
      * intros l Hl. rewrite lookup_insert_ne; [reflexivity |].
        intros <-. by apply (is_fresh (dom (dicts w))).
      * intros l Hl. rewrite dom_insert_L in Hl.
        apply elem_of_union in Hl as [Hl%elem_of_singleton | Hl]; tauto.
    + cbn [snd]. split; [reflexivity |]. split; [done | tauto].
  - intros inputs rm w1 w2 Hself Hd. unfold invocation.
    rewrite <- Hd, <- Hself.
    destruct (dicts w1 !! inputs) as [d |].
    + destruct (thread form _ _ d) as [[evs acc] e]. cbn [fst snd trace].
      split; [reflexivity |]. by exists evs.
    + cbn [fst snd]. split; [reflexivity |]. exists []. by rewrite !app_nil_r.
  - intros inputs1 rm1 inputs2 rm2 w Hin2.
    assert (self (invocation form inputs1 rm1 w).2 = self w
            /\ dicts (invocation form inputs1 rm1 w).2 !! inputs2
               = dicts w !! inputs2) as [Hself Hd].
    { unfold invocation. destruct (dicts w !! inputs1) as [d |].
      - destruct (thread form _ _ d) as [[evs acc] e]. cbn [snd self dicts].
        split; [reflexivity |]. rewrite lookup_insert_ne; [reflexivity |].
        intros <-. by apply (is_fresh (dom (dicts w))).
      - by cbn [snd]. }
    unfold invocation at 1 3. rewrite Hd, Hself.
    destruct (dicts w !! inputs2) as [d |]; [| reflexivity].
    by destruct (thread form _ _ d) as [[evs acc] e].
Qed.

Lemma isolated_ext run1 run2 :
  (forall inputs rm w, run1 inputs rm w = run2 inputs rm w) ->
  isolated run2 -> isolated run1.
Proof.
  intros Hext (Hframe & Hdep & Hseq). split; [| split].
  - intros inputs rm w. rewrite Hext. apply Hframe.
  - intros inputs rm w1 w2. rewrite !Hext. apply Hdep.
  - intros inputs1 rm1 inputs2 rm2 w. rewrite !Hext. apply Hseq.
Qed.

(** C9. Neither [_call] nor [_acall] changes the fields of the pipeline or
    any dictionary that existed when it was invoked (the caller's inputs
    among them); each works on an accumulator at a fresh reference, which
    starts as a copy of that invocation's inputs; so the outcome of an
    invocation is the same after an earlier invocation as without it. *)
Theorem accumulator_isolation :
  isolated (V := V) _call
  /\ isolated (V := V) (fun inputs rm => run_async (_acall inputs rm))
  /\ (forall inputs rm (w : World (Obj V) V) d,
        dicts w !! inputs = Some d ->
        exists evs acc e,
          thread blocking_form (get_child (or_noop rm) None) (chains (self w)) d
          = (evs, acc, e)
          /\ dicts (snd (_call inputs rm w))
             = <[fresh (dom (dicts w)) := acc]> (dicts w)
          /\ dicts w !! fresh (dom (dicts w)) = None).
Proof.
  split; [| split].
  - apply (isolated_ext _ (invocation blocking_form));
      [apply _call_invocation | apply invocation_isolated].
  - apply (isolated_ext _ (invocation awaited_form));
      [apply _acall_invocation | apply invocation_isolated].
  - intros inputs rm w d Hd. rewrite _call_invocation. unfold invocation.
    rewrite Hd.
    destruct (thread blocking_form _ _ d) as [[evs acc] e].
    exists evs, acc, e. cbn [snd dicts].
    split; [reflexivity |]. split; [reflexivity | apply fresh_not_allocated].
Qed.

(** The comprehension succeeds when every key is present, and what it
    builds holds, for the keys asked, the values of the dictionary. *)
Lemma comprehension_lookup d names r :
  covers d names ->
  exists r', comprehension d names r = Ok r'
             /\ forall j, r' !! j = if decide (j ∈ names) then d !! j else r !! j.
Proof.
  revert r. induction names as [| k names IH]; intros r Hcov.
  - exists r. split; [reflexivity |]. intros j.
    destruct (decide (j ∈ [])) as [Hj | _]; [by apply elem_of_nil in Hj | done].
  - destruct (Hcov k) as [v Hv]; [apply list_elem_of_here |].
    destruct (IH (<[k := v]> r)) as (r' & Hr' & Hlook).
    { intros j Hj. apply Hcov. by apply list_elem_of_further. }
    exists r'. split.
    + cbn [comprehension]. unfold getitem. rewrite Hv. exact Hr'.
    + intros j. rewrite Hlook.
      destruct (decide (j ∈ names)) as [Hj | Hj].
      * destruct (decide (j ∈ k :: names)) as [_ | Hn]; [done |].
        exfalso. apply Hn. by apply list_elem_of_further.
      * destruct (decide (j = k)) as [-> | Hne].
        -- rewrite lookup_insert_eq, Hv.
           destruct (decide (k ∈ k :: names)) as [_ | Hn]; [done |].
           exfalso. apply Hn. apply list_elem_of_here.
        -- rewrite lookup_insert_ne by done.
           destruct (decide (j ∈ k :: names)) as [Hin | _]; [| done].
           apply elem_of_cons in Hin as [? | ?]; done.
Qed.

Lemma project_lookup d names j :
  project d names !! j = if decide (j ∈ names) then d !! j else None.
Proof.
  unfold project. destruct (d !! j) as [v |] eqn:Hj.
  - destruct (decide (j ∈ names)) as [Hin | Hout].
    + apply map_lookup_filter_Some. by split.
    + apply map_lookup_filter_None. right. intros v' Hv'. done.
  - assert (filter (λ kv : string * V, kv.1 ∈ names) d !! j = None) as ->.
    { apply map_lookup_filter_None. by left. }
    by destruct (decide (j ∈ names)).
Qed.

Lemma comprehension_project d names :
  covers d names -> comprehension d names ∅ = Ok (project d names).
Proof.
  intros Hcov. destruct (comprehension_lookup d names ∅ Hcov) as (r' & -> & Hlook).
  f_equal. apply map_eq. intros j.
  rewrite Hlook, project_lookup, lookup_empty. reflexivity.
Qed.

Lemma dom_project d names :
  covers d names -> dom (project d names) = list_to_set names.
Proof.
  intros Hcov. apply set_eq. intros j.
  rewrite elem_of_dom, project_lookup, elem_of_list_to_set.
  destruct (decide (j ∈ names)) as [Hin | Hout].
  - split; [done | intros _; by apply Hcov].
  - split; [by intros [? ?] | done].
Qed.

(** When the validator accepted the steps from a known-set that the
    accumulator covers, and the steps keep their contract, threading runs
    through and the accumulator covers the final known-set. *)
Lemma thread_accepted cs K K' cb acc :
  validate_steps cs K = Ok K' ->
  (forall chain, chain ∈ cs -> step_contract chain) ->
  (forall k, k ∈ K -> is_Some (acc !! k)) ->
  exists evs acc',
    thread blocking_form cb cs acc = (evs, acc', None)
    /\ forall k, k ∈ K' -> is_Some (acc' !! k).
Proof.
  revert K acc. induction cs as [| chain cs IH]; intros K acc Hval Hcon Hcov.
  - injection Hval as <-. by exists [], acc.
  - cbn [validate_steps] in Hval.
    destruct (decide (missing_vars_of chain K ≠ ∅)) as [| Hmiss]; [discriminate |].
    destruct (decide (K ∩ list_to_set (output_keys chain) ≠ ∅)); [discriminate |].
    apply dec_stable in Hmiss. rewrite missing_vars_of_spec in Hmiss.
    destruct (Hcon chain (list_elem_of_here _ _) cb acc)
      as (evs & outputs & Hcall & Hout).
    { intros k Hk Hown. apply Hcov.
      destruct (decide (k ∈ K)) as [| HnK]; [done |].
      assert (k ∈ list_to_set (input_keys chain) ∖ K ∖ own_memory_keys chain)
        as Hin by set_solver.
      rewrite Hmiss in Hin. set_solver. }
    destruct (IH _ (outputs ∪ acc) Hval) as (evs' & acc' & Hthread & Hcov').
    { intros c Hc. apply Hcon. by apply list_elem_of_further. }
    { intros k [Hk | Hk]%elem_of_union.
      - destruct (Hcov k Hk) as [v Hv]. apply lookup_union_is_Some. by right; exists v.
      - apply lookup_union_is_Some. left. apply Hout.
        by apply elem_of_list_to_set in Hk. }
    exists (evs ++ evs'), acc'. split; [| exact Hcov'].
    cbn [thread]. unfold blocking_form at 1. rewrite Hcall, Hthread. reflexivity.
Qed.

(** What a successful construction tells about the instance. *)
Lemma construct_inv values obj :
  construct values = Ok obj ->
  chains obj = values_chains values
  /\ input_variables obj = values_input_variables values
  /\ exists K',
       validate_steps (values_chains values) (initial_known values) = Ok K'
       /\ forall k, k ∈ output_variables obj -> k ∈ K'.
Proof.
  unfold construct, validate_chains, initial_known. intros Hc.
  destruct (memory_keys_of _ _) as [mk | e] eqn:Hmem; [| discriminate].
  assert (mk = pipeline_memory_keys values) as Hmk.
  { revert Hmem. unfold memory_keys_of, pipeline_memory_keys.
    destruct (values_memory values); [| congruence].
    destruct (decide _); congruence. }
  subst mk. cbn in Hc.
  destruct (validate_steps _ _) as [K' | e] eqn:Hsteps; [| discriminate].
  cbn in Hc. unfold finish_outputs in Hc.
  pose proof (validate_steps_Ok _ _ _ Hsteps) as HK'.
  destruct (values_output_variables values) as [names |] eqn:Hov.
  - destruct (decide (names_set names ∖ K' ≠ ∅)) as [| Hsub]; [discriminate |].
    cbn in Hc. rewrite Hov in Hc. injection Hc as <-. cbn.
    split; [reflexivity |]. split; [reflexivity |].
    exists K'. split; [reflexivity |].
    apply dec_stable, difference_empty_subseteq in Hsub.
    intros k Hk. apply Hsub. destruct names as [l | s]; cbn in *.
    + by apply elem_of_list_to_set.
    + by apply elem_of_elements in Hk.
  - destruct (default false (values_return_all values)).
    + cbn in Hc. injection Hc as <-. cbn.
      split; [reflexivity |]. split; [reflexivity |].
      exists K'. split; [reflexivity |].
      intros k Hk%elem_of_elements. set_solver.
    + destruct (last (values_chains values)) as [chain |] eqn:Hlast;
        [| discriminate].
      cbn in Hc. injection Hc as <-. cbn.
      split; [reflexivity |]. split; [reflexivity |].
      exists K'. split; [reflexivity |].
      intros k Hk. rewrite HK'. apply elem_of_union. right.
      apply last_Some in Hlast as [front Hfront].
      rewrite Hfront, produced_app, produced_cons.
      apply elem_of_union. right. apply elem_of_union. left.
      by apply elem_of_list_to_set.
Qed.

(** Invocation of a constructed pipeline on inputs that hold the input
    variables and the pipeline-level memory keys, with steps that keep
    their contract. *)
Lemma _call_constructed values obj w inputs rm d :
  construct values = Ok obj ->
  self w = obj ->
  dicts w !! inputs = Some d ->
  covers d (values_input_variables values) ->
  covers d (pipeline_memory_keys values) ->
  (forall chain, chain ∈ chains obj -> step_contract chain) ->
  exists evs acc,
    thread blocking_form (get_child (or_noop rm) None) (chains obj) d
    = (evs, acc, None)
    /\ _call inputs rm w
       = (Ok (project acc (output_variables obj)),
          mkWorld obj (<[fresh (dom (dicts w)) := acc]> (dicts w))
                  (trace w ++ evs))
    /\ dom (project acc (output_variables obj))
       = list_to_set (output_variables obj).
Proof.
  intros Hc Hself Hd Hin Hmem Hcon.
  destruct (construct_inv _ _ Hc) as (Hchains & _ & K' & Hsteps & Hout).
  rewrite <- Hchains in Hsteps.
  destruct (thread_accepted _ _ _ (get_child (or_noop rm) None) d Hsteps Hcon)
    as (evs & acc & Hthread & Hcov).
  { intros k Hk. unfold initial_known in Hk.
    apply elem_of_list_to_set, elem_of_app in Hk as [Hk | Hk];
      [by apply Hin | by apply Hmem]. }
  assert (covers acc (output_variables obj)) as Hcovers.
  { intros k Hk. apply Hcov. by apply Hout. }
  exists evs, acc. split; [exact Hthread |]. split.
  - rewrite _call_invocation. unfold invocation. rewrite Hd, Hself, Hthread.
    by rewrite (comprehension_project _ _ Hcovers).
  - by apply dom_project.
Qed.
End Facts.
End KeyedExecution.

(** ** Invocation on concrete pipelines *)

Module KeyedExecutionExamples.
Import SequentialChain Examples KeyedValidation KeyedExecution.
Import KeyedValidationExamples.

Lemma keyed_step_contract name ins outs mem produces :
  covers produces outs ->
  step_contract (keyed_step name ins outs mem produces).
Proof.
  intros Hcov cb d Hreq. exists [EvStep cb name], produces.
  split; [| exact Hcov]. cbn.
  destruct (decide _) as [_ | Hno]; [reflexivity |].
  exfalso. apply Hno. apply Forall_forall. intros k Hk.
  unfold own_memory_keys in Hreq. cbn in Hreq.
  destruct mem as [m |]; cbn.
  - destruct (decide (k ∈ memory_variables m)) as [| Hn]; [by right |].
    left. apply elem_of_dom. apply Hreq; [exact Hk |].
    by rewrite elem_of_list_to_set.
  - left. apply elem_of_dom. apply Hreq; [exact Hk | set_solver].
Qed.

Lemma covers_singleton (k : string) (v : Z) : covers {[ k := v ]} [k].
Proof.
  intros j Hj. apply list_elem_of_singleton in Hj as ->.
  exists v. apply lookup_singleton_eq.
Qed.

(** C4 (amended). For a constructed pipeline, inputs that hold every input
    variable and every pipeline-level memory key, and steps that keep their
    contract, [_call] copies the inputs into a fresh accumulator, gives each
    step in list order the whole accumulator and merges its outputs, and
    returns the accumulator restricted to exactly the output variables; on
    [{"a": 1}] with a step from [a] to [b = 2] and a step from [b] to
    [c = 3], nothing declared and [return_all] unset, it returns
    [{"c": 3}]. *)
Theorem invocation_threads_accumulator :
  (forall (V : Type) (values : Values V) (obj : Obj V) (w : World (Obj V) V)
          (inputs : positive) (rm : option RunManager) (d : gmap string V),
      construct values = Ok obj ->
      self w = obj ->
      dicts w !! inputs = Some d ->
      covers d (values_input_variables values) ->
      covers d (pipeline_memory_keys values) ->
      (forall chain, chain ∈ chains obj -> step_contract chain) ->
      exists evs acc,
        thread blocking_form (get_child (or_noop rm) None) (chains obj) d
        = (evs, acc, None)
        /\ _call inputs rm w
           = (Ok (project acc (output_variables obj)),
              mkWorld obj (<[fresh (dom (dicts w)) := acc]> (dicts w))
                      (trace w ++ evs))
        /\ dom (project acc (output_variables obj))
           = list_to_set (output_variables obj))
  /\ construct two_steps = Ok two_steps_obj
  /\ fst (_call 1%positive None (world_a1 two_steps_obj)) = Ok {[ "c" := 3%Z ]}.
Proof.
  split; [| split].
  - intros V values obj w inputs rm d. apply _call_constructed.
  - reflexivity.
  - reflexivity.
Qed.

Lemma invocation_threads_accumulator_witness :
  exists evs acc,
    thread blocking_form (get_child NoopManager None) [step1; step2] {[ "a" := 1%Z ]}
    = (evs, acc, None)
    /\ _call 1%positive None (world_a1 two_steps_obj)
       = (Ok (project acc ["c"]),
          mkWorld two_steps_obj
                  (<[fresh (dom (dicts (world_a1 two_steps_obj))) := acc]>
                     (dicts (world_a1 two_steps_obj)))
                  (trace (world_a1 two_steps_obj) ++ evs))
    /\ dom (project acc ["c"]) = list_to_set ["c"].
Proof.
  apply (proj1 invocation_threads_accumulator Z two_steps two_steps_obj
               (world_a1 two_steps_obj) 1%positive None {[ "a" := 1%Z ]}).
  - reflexivity.
  - reflexivity.
  - reflexivity.
  - apply covers_singleton.
  - intros k Hk. vm_compute in Hk. inversion Hk.
  - intros chain Hc. apply list_elem_of_In in Hc. simpl in Hc.
    destruct Hc as [<- | [<- | []]];
      apply keyed_step_contract, covers_singleton.
Defined.

(** C4, as stated, fails when the pipeline has a memory: the pipeline below
    is constructed, its steps keep their contract, the inputs hold every
    input variable, and [_call] raises a key error on the memory key. *)
Lemma memory_key_not_in_inputs :
  construct with_memory = Ok with_memory_obj
  /\ covers ({[ "a" := 1%Z ]} : gmap string Z) (input_variables with_memory_obj)
  /\ (forall chain, chain ∈ chains with_memory_obj -> step_contract chain)
  /\ dicts (world_a1 with_memory_obj) !! 1%positive = Some {[ "a" := 1%Z ]}
  /\ fst (_call 1%positive None (world_a1 with_memory_obj)) = Raise (KeyError "m").
Proof.
  split; [reflexivity |].
  split; [apply covers_singleton |].
  split.
  - intros chain Hc. apply list_elem_of_In in Hc. simpl in Hc.
    destruct Hc as [<- | []]. apply keyed_step_contract, covers_singleton.
  - split; reflexivity.
Qed.
End KeyedExecutionExamples.

(** ** Invocation of [SimpleSequentialChain] *)

Module ScalarExecution.
Import SimpleSequentialChain.
Section Facts.
Variable get_color_mapping : list string -> gmap string string.
Implicit Types (w : World Obj string) (cs : list (Chain string)).
Implicit Types (f : Chain string -> string -> string).

Lemma composition_cons strip_flag f chain cs x :
  composition strip_flag f (chain :: cs) x
  = composition strip_flag f cs (trimmed strip_flag (f chain x)).
Proof. reflexivity. Qed.



(** The loop of [_call] computes the composition and sends the
    notifications, when the steps return and the positions have colours. *)
Lemma call_steps_composition cs rm cm f i x w :
  steps_return cs f ->
  (forall j, i <= j < i + length cs -> is_Some (cm !! str j)) ->
  call_steps rm cm i cs x w
  = (Ok (composition (strip_outputs (self w)) f cs x),
     mkWorld (self w) (dicts w)
             (trace w ++ notifications (self w) rm cm f i cs x)).
Proof.
  revert i x w. induction cs as [| chain cs IH]; intros i x w Hret Hcol.
  - cbn. by rewrite app_nil_r, world_eta.
  - cbn [call_steps notifications]. rewrite composition_cons.
    rewrite M_bind_unfold. unfold invoke at 1.
    pose proof (Hret chain (get_child rm (Some ("step_" +:+ str (i + 1)))) x
                     (list_elem_of_here _ _)) as Hrun.
    destruct (chain_run chain _ x) as [evs r]. cbn [fst snd] in *. subst r.
    rewrite M_bind_unfold. unfold get_attr at 1. cbn [self].
    rewrite M_bind_unfold. unfold of_result at 1, getitem at 1.
    destruct (Hcol i) as [color Hcolor]; [cbn [length]; lia |].
    rewrite Hcolor. rewrite M_bind_unfold. unfold get_attr at 1. cbn [self].
    rewrite M_bind_unfold. unfold emit at 1. cbn [self dicts trace].
    rewrite IH.
    + cbn [self dicts trace default]. unfold trimmed.
      by rewrite <- !app_assoc.
    + intros c cb y Hc. apply Hret. by apply list_elem_of_further.
    + intros j Hj. apply Hcol. cbn [length]. lia.
Qed.

(** The loop of [_acall], run to completion, is the loop of [_call] when
    the steps' two forms agree. *)
Lemma acall_steps_call_steps cs rm cm i x w :
  (forall chain callbacks y, chain ∈ cs ->
     await (chain_arun chain callbacks y) = chain_run chain callbacks y) ->
  run_async (acall_steps rm cm i cs x) w = call_steps rm cm i cs x w.
Proof.
  revert i x w. induction cs as [| chain cs IH]; intros i x w Hagree;
    [reflexivity |].
  cbn [acall_steps call_steps].
  rewrite run_async_bind, run_async_awaiting, M_bind_unfold.
  rewrite (Hagree chain); [| apply list_elem_of_here].
  destruct (invoke (chain_run chain _ x) w) as [[y | e] w1]; [| reflexivity].
  rewrite run_async_bind, run_async_lift, M_bind_unfold.
  destruct (get_attr strip_outputs w1) as [[flag | e] w2]; [| reflexivity].
  rewrite run_async_bind, run_async_lift, M_bind_unfold.
  destruct (of_result (getitem cm (str i)) w2) as [[color | e] w3];
    [| reflexivity].
  rewrite run_async_bind, run_async_lift, M_bind_unfold.
  destruct (get_attr verbose w3) as [[v | e] w4]; [| reflexivity].
  rewrite run_async_bind, run_async_emit, M_bind_unfold.
  destruct (emit _ w4) as [[[] | e] w5]; [| reflexivity].
  apply IH. intros c cb y' Hc. apply Hagree. by apply list_elem_of_further.
Qed.

Lemma get_attr_self {A} (field : Obj -> A) w :
  get_attr field w = (Ok (field (self w)), w).
Proof. reflexivity. Qed.

Lemma scalar_modes_agree inputs run_manager w :
  (forall chain callbacks y, chain ∈ chains (self w) ->
     await (chain_arun chain callbacks y) = chain_run chain callbacks y) ->
  run_async (_acall get_color_mapping inputs run_manager) w
  = _call get_color_mapping inputs run_manager w.
Proof.
  intros Hagree. unfold _acall, _call.
  rewrite run_async_bind, run_async_lift, M_bind_unfold.
  unfold dict_read at 1 2.
  destruct (dicts w !! inputs) as [d |]; [| reflexivity].
  rewrite run_async_bind, run_async_lift, M_bind_unfold, !get_attr_self.
  rewrite run_async_bind, run_async_lift, M_bind_unfold.
  unfold of_result at 1 2.
  destruct (getitem d (input_key (self w))) as [x | e]; [| reflexivity].
  rewrite run_async_bind, run_async_lift, M_bind_unfold, !get_attr_self.
  rewrite run_async_bind, run_async_lift, M_bind_unfold, !get_attr_self.
  rewrite run_async_bind, M_bind_unfold.
  rewrite (acall_steps_call_steps _ _ _ _ _ _ Hagree).
  destruct (call_steps _ _ 0 (chains (self w)) x w) as [[z | e] w1];
    [| reflexivity].
  rewrite run_async_bind, run_async_lift, M_bind_unfold, !get_attr_self.
  reflexivity.
Qed.

(** [_call] on a dictionary that holds the input key, with steps that
    return and a colour for every position. *)
Lemma _call_composition inputs run_manager w d x f :
  colors_total get_color_mapping ->
  dicts w !! inputs = Some d ->
  d !! input_key (self w) = Some x ->
  steps_return (chains (self w)) f ->
  _call get_color_mapping inputs run_manager w
  = (Ok {[ output_key (self w)
           := composition (strip_outputs (self w)) f (chains (self w)) x ]},
     mkWorld (self w) (dicts w)
             (trace w
              ++ notifications (self w) (or_noop run_manager)
                   (get_color_mapping (str <$> seq 0 (length (chains (self w)))))
                   f 0 (chains (self w)) x)).
Proof.
  intros Hcolors Hd Hx Hret. unfold _call.
  rewrite M_bind_unfold. unfold dict_read at 1. rewrite Hd.
  rewrite M_bind_unfold, get_attr_self.
  rewrite M_bind_unfold. unfold of_result at 1, getitem at 1. rewrite Hx.
  rewrite M_bind_unfold, get_attr_self.
  rewrite M_bind_unfold, get_attr_self.
  rewrite M_bind_unfold.
  rewrite (call_steps_composition _ _ _ f); [| exact Hret |].
  - rewrite M_bind_unfold, get_attr_self. reflexivity.
  - intros j Hj. apply Hcolors. apply list_elem_of_fmap_2.
    apply elem_of_seq. lia.
Qed.
End Facts.

End ScalarExecution.

(** ** Scalar invocation and the two modes on concrete pipelines *)

Module ExecutionExamples.
Import Examples.

Lemma imap_fst_id {A B} (g : nat -> A -> B) (items : list A) :
  (imap (fun i item => (item, g i item)) items).*1 = items.
Proof.
  revert g. induction items as [| item items IH]; intros g; [reflexivity |].
  cbn. f_equal. apply (IH (fun i => g (S i))).
Qed.

Lemma cycling_colors_total : SimpleSequentialChain.colors_total cycling_colors.
Proof.
  intros items k Hk. unfold cycling_colors.
  destruct (list_to_map _ !! k) as [color |] eqn:Hlook; [by exists color |].
  exfalso. apply not_elem_of_list_to_map_2 in Hlook. apply Hlook.
  by rewrite (imap_fst_id (fun i _ => default "" (palette !! (i mod 5)))).
Qed.

Lemma example_steps_return :
  SimpleSequentialChain.steps_return [uppercase; reverse] example_function.
Proof.
  intros chain cb x Hc. apply list_elem_of_In in Hc. simpl in Hc.
  destruct Hc as [<- | [<- | []]]; reflexivity.
Qed.


(** C8. For either pipeline, when each step's suspendable form, awaited,
    gives what its blocking form gives, [_acall] run to completion and
    [_call] end with the same outcome, the same notifications in the same
    order and the same store. *)
Theorem modes_agree :
  (forall (V : Type) (w : World (SequentialChain.Obj V) V)
          (inputs : positive) (run_manager : option RunManager),
      (forall chain callbacks d, chain ∈ SequentialChain.chains (self w) ->
         await (chain_acall chain callbacks d) = chain_call chain callbacks d) ->
      run_async (SequentialChain._acall inputs run_manager) w
      = SequentialChain._call inputs run_manager w)
  /\ (forall (get_color_mapping : list string -> gmap string string)
             (w : World SimpleSequentialChain.Obj string)
             (inputs : positive) (run_manager : option RunManager),
        (forall chain callbacks x, chain ∈ SimpleSequentialChain.chains (self w) ->
           await (chain_arun chain callbacks x) = chain_run chain callbacks x) ->
        run_async (SimpleSequentialChain._acall get_color_mapping inputs run_manager) w
        = SimpleSequentialChain._call get_color_mapping inputs run_manager w).
Proof.
  split.
  - intros V w inputs run_manager. apply KeyedExecution.keyed_modes_agree.
  - intros gcm w inputs run_manager. apply ScalarExecution.scalar_modes_agree.
Qed.

Lemma modes_agree_witness :
  run_async (SequentialChain._acall 1%positive (Some (Manager 7)))
            (world_a1 two_steps_obj)
  = SequentialChain._call 1%positive (Some (Manager 7)) (world_a1 two_steps_obj)
  /\ run_async (SimpleSequentialChain._acall cycling_colors 1%positive None)
               (world_hi (upper_then_reverse true))
     = SimpleSequentialChain._call cycling_colors 1%positive None
         (world_hi (upper_then_reverse true)).
Proof.
  split.
  - apply (proj1 modes_agree).
    intros chain cb d Hc. apply list_elem_of_In in Hc. simpl in Hc.
    destruct Hc as [<- | [<- | []]]; reflexivity.
  - apply (proj2 modes_agree).
    intros chain cb x Hc. apply list_elem_of_In in Hc. simpl in Hc.
    destruct Hc as [<- | [<- | []]]; reflexivity.
Defined.

Lemma accumulator_isolation_witness :
  fst (SequentialChain._call 2%positive None
         (snd (SequentialChain._call 1%positive None two_callers)))
  = fst (SequentialChain._call 2%positive None two_callers)
  /\ dicts (snd (SequentialChain._call 1%positive None two_callers)) !! 1%positive
     = dicts two_callers !! 1%positive
  /\ self (snd (SequentialChain._call 1%positive None two_callers))
     = self two_callers.
Proof.
  destruct (KeyedExecution.accumulator_isolation (V := Z))
    as ((Hframe & _ & Hseq) & _ & _).
  assert (forall l : positive, l = 1%positive \/ l = 2%positive ->
                               l ∈ dom (dicts two_callers)) as Hdom.
  { intros l [-> | ->]; apply elem_of_dom; eexists; reflexivity. }
  split; [| split].
  - apply Hseq. apply Hdom. by right.
  - apply (Hframe 1%positive None two_callers). apply Hdom. by left.
  - apply (Hframe 1%positive None two_callers).
Defined.
End ExecutionExamples.

(** * Further properties of the validator *)

Module KeyedValidationMore.
Import SequentialChain KeyedValidation.
Section Facts.
Context {V : Type}.
Implicit Types (values : Values V) (chain : Chain V) (cs : list (Chain V)).
Implicit Types (K : gset string).

(** A successful validation passed the memory check and the step loop, and
    finished on the final known-set. *)
Lemma validate_chains_Ok_steps values values' :
  validate_chains values = Ok values' ->
  memory_disjoint values
  /\ validate_steps (values_chains values) (initial_known values)
     = Ok (final_known_set values)
  /\ finish_outputs values (final_known_set values) = Ok values'.
Proof.
  intros Hv. destruct (validate_chains_Ok_inv _ _ Hv) as [Hdis Hfin].
  split; [exact Hdis |]. split; [| exact Hfin].
  rewrite (validate_chains_unfold _ Hdis) in Hv.
  destruct (validate_steps _ _) as [K' | e] eqn:Hsteps; [| discriminate].
  f_equal. rewrite final_known_set_all. by apply validate_steps_Ok in Hsteps.
Qed.

(** When the loop accepts the whole list, every position is valid. *)
Lemma validate_steps_Ok_prefix_valid values K' :
  validate_steps (values_chains values) (initial_known values) = Ok K' ->
  forall i, prefix_valid values i.
Proof.
  intros Hsteps. induction i as [| i IH].
  - intros j chain Hj. lia.
  - intros j chain Hj Hlook.
    destruct (decide (j = i)) as [-> | Hne]; [| apply IH; [lia | exact Hlook]].
    pose proof (validate_steps_first_violation _ _ _ IH Hlook) as Hfirst.
    rewrite Hsteps in Hfirst.
    destruct (decide (step_missing values i chain ≠ ∅)) as [| Hmiss];
      [discriminate |].
    destruct (decide (step_collisions values i chain ≠ ∅)) as [| Hcol];
      [discriminate |].
    split; by apply dec_stable.
Qed.


(** The names the validator fills in are known at the end. *)
Lemma finish_outputs_known values values' :
  finish_outputs values (final_known_set values) = Ok values' ->
  exists names,
    values' = set_output_variables values names
    /\ names_set names ⊆ final_known_set values.
Proof.
  intros Hfin.
  destruct (values_output_variables values) as [names |] eqn:Hov.
  - rewrite (finish_outputs_declared _ _ _ Hov) in Hfin.
    destruct (decide _) as [| Hsub]; [discriminate |]. injection Hfin as <-.
    exists names. split; [by rewrite set_output_variables_id |].
    by apply difference_empty_subseteq, dec_stable.
  - rewrite (finish_outputs_inferred _ _ Hov) in Hfin.
    destruct (default false (values_return_all values)).
    + injection Hfin as <-. eexists. split; [reflexivity |].
      cbn. set_solver.
    + destruct (last (values_chains values)) as [chain |] eqn:Hlast;
        [| discriminate].
      injection Hfin as <-. eexists. split; [reflexivity |]. cbn.
      rewrite final_known_set_all. apply last_Some in Hlast as [front Hfront].
      rewrite Hfront, produced_app, produced_cons. set_solver.
Qed.

(** X2. Validating already validated values changes nothing: the values a
    successful validation returns pass validation again and come back as
    they are. *)
Theorem validation_idempotent values values' :
  validate_chains values = Ok values' ->
  validate_chains values' = Ok values'.
Proof.
  intros Hv.
  destruct (validate_chains_Ok_steps _ _ Hv) as (Hdis & Hsteps & Hfin).
  destruct (finish_outputs_known _ _ Hfin) as (names & -> & Hsub).
  assert (memory_disjoint (set_output_variables values names)) as Hdis'
    by exact Hdis.
  rewrite (validate_chains_unfold _ Hdis').
  change (initial_known (set_output_variables values names))
    with (initial_known values).
  change (values_chains (set_output_variables values names))
    with (values_chains values).
  rewrite Hsteps. cbn.
  destruct (decide _) as [Hne | _]; [| reflexivity].
  exfalso. apply Hne. by apply difference_empty_subseteq.
Qed.



Lemma produced_lookup cs i chain k :
  cs !! i = Some chain -> k ∈ output_keys chain -> k ∈ produced cs.
Proof.
  intros Hi Hk. rewrite <- (take_drop_middle _ _ _ Hi).
  rewrite produced_app, produced_cons. set_solver.
Qed.

(** What a step of an accepted pipeline produces was not known before. *)
Lemma produced_names_not_known values values' :
  validate_chains values = Ok values' ->
  forall j chain k,
    values_chains values !! j = Some chain ->
    k ∈ output_keys chain ->
    (k ∉ values_input_variables values)
    /\ (k ∉ pipeline_memory_keys values)
    /\ forall i earlier, i < j -> values_chains values !! i = Some earlier ->
          k ∉ output_keys earlier.
Proof.
  intros Hv j chain k Hj Hk.
  destruct (validate_chains_Ok_steps _ _ Hv) as (_ & Hsteps & _).
  destruct (validate_steps_Ok_prefix_valid _ _ Hsteps (S j) j chain)
    as [_ Hcol]; [lia | exact Hj |].
  unfold step_collisions, known_set in Hcol.
  assert (forall x, x ∈ list_to_set (values_input_variables values)
                        ∪ list_to_set (pipeline_memory_keys values)
                        ∪ produced (take j (values_chains values)) ->
                    x ∈ (list_to_set (output_keys chain) : gset string) ->
                    False) as Hno.
  { intros x Hx1 Hx2.
    assert (x ∈ (∅ : gset string)) as Hin; [| set_solver].
    rewrite <- Hcol. set_solver. }
  assert (k ∈ (list_to_set (output_keys chain) : gset string)) as Hk'
    by by apply elem_of_list_to_set.
  split; [| split].
  - intros Hin. apply (Hno k); [| exact Hk'].
    apply elem_of_union. left. apply elem_of_union. left.
    by apply elem_of_list_to_set.
  - intros Hin. apply (Hno k); [| exact Hk'].
    apply elem_of_union. left. apply elem_of_union. right.
    by apply elem_of_list_to_set.
  - intros i earlier Hij Hi Hin. apply (Hno k); [| exact Hk'].
    apply elem_of_union. right.
    apply (produced_lookup _ i earlier); [| exact Hin].
    rewrite lookup_take_lt by lia. exact Hi.
Qed.

(** X4. In a pipeline that validation accepts, a name a step produces is
    never an input variable, never a pipeline-level memory key, and never
    produced by an earlier step. *)
Theorem produced_names_are_new values values' :
  validate_chains values = Ok values' ->
  forall j chain k,
    values_chains values !! j = Some chain ->
    k ∈ output_keys chain ->
    (k ∉ values_input_variables values)
    /\ (k ∉ pipeline_memory_keys values)
    /\ forall i earlier, i < j -> values_chains values !! i = Some earlier ->
          k ∉ output_keys earlier.
Proof. apply produced_names_not_known. Qed.

(** X5. With [return_all] set and nothing declared, the output keys of the
    constructed pipeline are exactly the pipeline-level memory keys together
    with every name the steps produce, and none of them is an input
    variable. *)
Theorem return_all_output_keys values (obj : Obj V) :
  construct values = Ok obj ->
  values_output_variables values = None ->
  default false (values_return_all values) = true ->
  (list_to_set (SequentialChainKeys.output_keys obj) : gset string)
  = list_to_set (pipeline_memory_keys values) ∪ produced (values_chains values)
  /\ (forall k, k ∈ SequentialChainKeys.output_keys obj ->
                 k ∉ SequentialChainKeys.input_keys obj)
  /\ SequentialChainKeys.input_keys obj = values_input_variables values.
Proof.
  intros Hc Hov Hall. unfold construct in Hc.
  destruct (validate_chains values) as [values' |] eqn:Hv; [| discriminate].
  pose proof (produced_names_not_known _ _ Hv) as Hnew.
  destruct (validate_chains_Ok_steps _ _ Hv) as (Hdis & _ & Hfin).
  rewrite (finish_outputs_inferred _ _ Hov), Hall in Hfin.
  injection Hfin as <-. cbn in Hc. injection Hc as <-.
  unfold SequentialChainKeys.output_keys, SequentialChainKeys.input_keys. cbn.
  assert (final_known_set values ∖ list_to_set (values_input_variables values)
          = list_to_set (pipeline_memory_keys values)
            ∪ produced (values_chains values)) as Heq.
  { rewrite final_known_set_all. unfold initial_known.
    rewrite list_to_set_app_L. apply set_eq. intros k.
    rewrite elem_of_difference, !elem_of_union, !elem_of_list_to_set.
    split; [tauto |]. intros [Hm | Hp].
    - split; [tauto |]. intros Hin. by apply (Hdis k).
    - split; [tauto |]. unfold produced in Hp.
      apply elem_of_union_list in Hp as (X & HX & HkX).
      apply list_elem_of_fmap in HX as (chain & -> & Hchain).
      apply list_elem_of_lookup in Hchain as [j Hj].
      apply elem_of_list_to_set in HkX.
      by destruct (Hnew j chain k Hj HkX) as [Hni _]. }
  split; [| split; [| reflexivity]].
  - by rewrite list_to_set_elements_L.
  - intros k Hk%elem_of_elements. rewrite Heq in Hk. intros Hin.
    apply elem_of_union in Hk. rewrite elem_of_list_to_set in Hk.
    destruct Hk as [Hm | Hp].
    + by apply (Hdis k).
    + unfold produced in Hp.
      apply elem_of_union_list in Hp as (X & HX & HkX).
      apply list_elem_of_fmap in HX as (chain & -> & Hchain).
      apply list_elem_of_lookup in Hchain as [j Hj].
      apply elem_of_list_to_set in HkX.
      by destruct (Hnew j chain k Hj HkX) as [Hni _].
Qed.

(** X6. Cutting steps off the end of a pipeline that is accepted with
    [return_all] set and nothing declared leaves a pipeline that is accepted
    too. *)
Theorem prefix_accepted values values' n :
  validate_chains values = Ok values' ->
  values_output_variables values = None ->
  default false (values_return_all values) = true ->
  exists shorter,
    validate_chains (with_chains values (take n (values_chains values)))
    = Ok shorter.
Proof.
  intros Hv Hov Hall.
  destruct (validate_chains_Ok_steps _ _ Hv) as (Hdis & Hsteps & _).
  assert (memory_disjoint (with_chains values (take n (values_chains values))))
    as Hdis' by exact Hdis.
  rewrite (validate_chains_unfold _ Hdis').
  change (initial_known (with_chains values (take n (values_chains values))))
    with (initial_known values).
  change (values_chains (with_chains values (take n (values_chains values))))
    with (take n (values_chains values)).
  rewrite <- (take_drop n (values_chains values)) in Hsteps at 1.
  rewrite validate_steps_app in Hsteps.
  destruct (validate_steps (take n (values_chains values)) (initial_known values))
    as [K1 | e]; [| discriminate].
  cbn. rewrite finish_outputs_inferred by exact Hov. cbn.
  rewrite Hall. by eexists.
Qed.
End Facts.
End KeyedValidationMore.

(** * Further properties of keyed invocation *)

Module KeyedExecutionMore.
Import SequentialChain KeyedValidation KeyedExecution.
Section Facts.
Context {V : Type}.
Implicit Types (w : World (Obj V) V) (chain : Chain V) (cs : list (Chain V)).
Implicit Types (acc d : gmap string V) (values : Values V) (obj : Obj V).
Implicit Types
  (form : Chain V -> Callbacks -> gmap string V
          -> list Event * result (gmap string V)).

(** Threading through a concatenation: through the first part, and, unless
    a step raised, on through the second part. *)
Lemma thread_app form cb cs1 cs2 acc :
  thread form cb (cs1 ++ cs2) acc
  = let '(evs1, acc1, e1) := thread form cb cs1 acc in
    match e1 with
    | Some e => (evs1, acc1, Some e)
    | None =>
        let '(evs2, acc2, e2) := thread form cb cs2 acc1 in
        (evs1 ++ evs2, acc2, e2)
    end.
Proof.
  revert acc. induction cs1 as [| chain cs1 IH]; intros acc.
  - cbn. by destruct (thread form cb cs2 acc) as [[evs2 acc2] e2].
  - cbn [app thread].
    destruct (form chain cb acc) as [evs [outputs | e]]; [| reflexivity].
    rewrite IH.
    destruct (thread form cb cs1 (outputs ∪ acc)) as [[evs1 acc1] [e1 |]];
      [reflexivity |].
    destruct (thread form cb cs2 acc1) as [[evs2 acc2] e2].
    by rewrite app_assoc.
Qed.

(** Threading never removes a key from the accumulator. *)
Lemma thread_dom form cb cs acc evs acc' e :
  thread form cb cs acc = (evs, acc', e) -> dom acc ⊆ dom acc'.
Proof.
  revert acc evs acc' e. induction cs as [| chain cs IH];
    intros acc evs acc' e; cbn [thread].
  - by intros [= _ <- _].
  - destruct (form chain cb acc) as [evs0 [outputs | e0]].
    + destruct (thread form cb cs (outputs ∪ acc)) as [[evs1 acc1] e1] eqn:Hth.
      intros [= _ <- _]. apply IH in Hth.
      rewrite dom_union_L in Hth. set_solver.
    + by intros [= _ <- _].
Qed.

(** The comprehension succeeds only if every key is present. *)
Lemma comprehension_Ok_covers d names r0 r :
  comprehension d names r0 = Ok r -> covers d names.
Proof.
  revert r0. induction names as [| k names IH]; intros r0 Hc.
  - intros j Hj. by apply elem_of_nil in Hj.
  - cbn [comprehension] in Hc. unfold getitem in Hc.
    destruct (d !! k) as [v |] eqn:Hk; [| discriminate]. cbn in Hc.
    intros j [-> | Hj]%elem_of_cons; [by exists v |]. by apply (IH _ Hc).
Qed.

(** It stops at the first key that is absent. *)
Lemma comprehension_missing d before k after r0 :
  covers d before ->
  d !! k = None ->
  comprehension d (before ++ k :: after) r0 = Raise (KeyError k).
Proof.
  revert r0. induction before as [| j before IH]; intros r0 Hcov Hk.
  - cbn. unfold getitem. by rewrite Hk.
  - cbn [app comprehension]. unfold getitem.
    destruct (Hcov j) as [v Hv]; [apply list_elem_of_here |]. rewrite Hv. cbn.
    apply IH; [| exact Hk]. intros x Hx. apply Hcov. by apply list_elem_of_further.
Qed.

(** X7. Whatever the steps are, when [_call] returns, the dictionary it
    returns has exactly the output variables as keys, each with the value
    the accumulator holds for it at the end. *)
Theorem returned_keys inputs run_manager w r w' :
  _call inputs run_manager w = (Ok r, w') ->
  dom r = list_to_set (output_variables (self w))
  /\ exists acc,
       dicts w' !! fresh (dom (dicts w)) = Some acc
       /\ r = project acc (output_variables (self w))
       /\ forall k, k ∈ output_variables (self w) ->
                    is_Some (acc !! k) /\ r !! k = acc !! k.
Proof.
  rewrite _call_invocation. unfold invocation.
  destruct (dicts w !! inputs) as [d |]; [| discriminate].
  destruct (thread blocking_form _ _ d) as [[evs acc] [e |]]; [discriminate |].
  intros [= Hc <-]. cbn [dicts].
  pose proof (comprehension_Ok_covers _ _ _ _ Hc) as Hcov.
  rewrite (comprehension_project _ _ Hcov) in Hc. injection Hc as <-.
  split; [by apply dom_project |].
  exists acc. split; [apply lookup_insert_eq |]. split; [reflexivity |].
  intros k Hk. split; [by apply Hcov |].
  rewrite project_lookup. by destruct (decide (k ∈ output_variables (self w))).
Qed.

(** X8. When the steps run through but the accumulator lacks an output
    variable, [_call] raises the key error of the first output variable
    that is absent; the notifications of the steps have been sent. *)
Theorem missing_output_variable inputs run_manager w d evs acc before k after :
  dicts w !! inputs = Some d ->
  thread blocking_form (get_child (or_noop run_manager) None)
         (chains (self w)) d = (evs, acc, None) ->
  output_variables (self w) = before ++ k :: after ->
  covers acc before ->
  acc !! k = None ->
  _call inputs run_manager w
  = (Raise (KeyError k),
     mkWorld (self w) (<[fresh (dom (dicts w)) := acc]> (dicts w))
             (trace w ++ evs)).
Proof.
  intros Hd Hth Hout Hcov Hk.
  rewrite _call_invocation. unfold invocation. rewrite Hd, Hth, Hout.
  by rewrite (comprehension_missing _ _ _ _ _ Hcov Hk).
Qed.

(** X9. When a step raises, [_call] raises that very exception: the steps
    after it are not invoked, the notifications sent are those of the steps
    before it and its own, and the accumulator holds what the steps before
    it produced. *)
Theorem step_exception_propagates
    inputs run_manager w d before chain after evs acc evs' e :
  dicts w !! inputs = Some d ->
  chains (self w) = before ++ chain :: after ->
  thread blocking_form (get_child (or_noop run_manager) None) before d
  = (evs, acc, None) ->
  chain_call chain (get_child (or_noop run_manager) None) acc = (evs', Raise e) ->
  _call inputs run_manager w
  = (Raise e,
     mkWorld (self w) (<[fresh (dom (dicts w)) := acc]> (dicts w))
             (trace w ++ evs ++ evs')).
Proof.
  intros Hd Hchains Hth Hcall.
  rewrite _call_invocation. unfold invocation.
  rewrite Hd, Hchains, thread_app, Hth. cbn [thread].
  unfold blocking_form at 1. by rewrite Hcall.
Qed.

(** X10. However an invocation ends, the accumulator it leaves behind has
    every key of the caller's dictionary: steps add and overwrite items,
    nothing is ever removed. *)
Theorem accumulator_grows inputs run_manager w d :
  dicts w !! inputs = Some d ->
  exists acc,
    dicts (snd (_call inputs run_manager w)) !! fresh (dom (dicts w)) = Some acc
    /\ dom d ⊆ dom acc.
Proof.
  intros Hd. rewrite _call_invocation. unfold invocation. rewrite Hd.
  destruct (thread blocking_form _ _ d) as [[evs acc] e] eqn:Hth.
  exists acc. cbn [snd dicts]. split; [apply lookup_insert_eq |].
  by apply thread_dom in Hth.
Qed.
End Facts.
End KeyedExecutionMore.

(** * Facts about [strip] *)

Module Strip.







End Strip.

(** * Further properties of scalar invocation *)

Module ScalarExecutionMore.
Import SimpleSequentialChain ScalarExecution.
Section Facts.
Variable get_color_mapping : list string -> gmap string string.
Implicit Types (w : World Obj string) (cs : list (Chain string)).
Implicit Types (f : Chain string -> string -> string).

Lemma composition_app strip_flag f cs1 cs2 x :
  composition strip_flag f (cs1 ++ cs2) x
  = composition strip_flag f cs2 (composition strip_flag f cs1 x).
Proof. unfold composition. apply fold_left_app. Qed.

(** The scalar loop over a concatenation. *)
Lemma scalar_call_steps_app rm cm i cs1 cs2 x w :
  call_steps rm cm i (cs1 ++ cs2) x w
  = (y ← call_steps rm cm i cs1 x;
     call_steps rm cm (i + length cs1) cs2 y) w.
Proof.
  revert i x w. induction cs1 as [| chain cs1 IH]; intros i x w.
  - cbn [app length call_steps]. rewrite Nat.add_0_r. reflexivity.
  - cbn [app length call_steps]. rewrite !M_bind_unfold.
    destruct (invoke _ w) as [[y | e] w1]; [| reflexivity].
    rewrite !M_bind_unfold.
    destruct (get_attr strip_outputs w1) as [[flag | e] w2]; [| reflexivity].
    rewrite !M_bind_unfold.
    destruct (of_result _ w2) as [[color | e] w3]; [| reflexivity].
    rewrite !M_bind_unfold.
    destruct (get_attr verbose w3) as [[v | e] w4]; [| reflexivity].
    rewrite !M_bind_unfold.
    destruct (emit _ w4) as [[[] | e] w5]; [| reflexivity].
    rewrite IH, M_bind_unfold. by rewrite Nat.add_succ_comm.
Qed.

Lemma notifications_snoc (self : Obj) rm cm f i cs chain x :
  notifications self rm cm f i (cs ++ [chain]) x
  = notifications self rm cm f i cs x
    ++ fst (chain_run chain
              (get_child rm (Some ("step_" +:+ str (i + length cs + 1))))
              (composition (strip_outputs self) f cs x))
    ++ [EvText rm
          (composition (strip_outputs self) f (cs ++ [chain]) x)
          (default "" (cm !! str (i + length cs)))
          newline (verbose self)].
Proof.
  revert i x. induction cs as [| c cs IH]; intros i x.
  - cbn [app length notifications]. rewrite Nat.add_0_r. reflexivity.
  - cbn [app length notifications]. rewrite IH, !composition_cons.
    rewrite <- !app_assoc. cbn [app].
    by rewrite !Nat.add_succ_comm.
Qed.

(** X11. Without the input key in the caller's dictionary, [_call] and
    [_acall] raise its key error before any step is invoked: nothing is
    notified and the store is as it was. *)
Theorem missing_input_key inputs run_manager w d :
  dicts w !! inputs = Some d ->
  d !! input_key (self w) = None ->
  _call get_color_mapping inputs run_manager w
  = (Raise (KeyError (input_key (self w))), w)
  /\ run_async (_acall get_color_mapping inputs run_manager) w
     = (Raise (KeyError (input_key (self w))), w).
Proof.
  intros Hd Hk. split.
  - unfold _call. rewrite M_bind_unfold. unfold dict_read at 1. rewrite Hd.
    rewrite M_bind_unfold, get_attr_self, M_bind_unfold.
    unfold of_result at 1, getitem at 1. by rewrite Hk.
  - unfold _acall. rewrite run_async_bind, run_async_lift.
    unfold dict_read at 1. rewrite Hd.
    rewrite run_async_bind, run_async_lift, get_attr_self.
    rewrite run_async_bind, run_async_lift.
    unfold of_result at 1, getitem at 1. by rewrite Hk.
Qed.

(** X12. With no steps, [_call] hands the input back untouched under the
    output key, trimming flag or not, and notifies nothing. *)
Theorem no_steps_identity inputs run_manager w d x :
  dicts w !! inputs = Some d ->
  d !! input_key (self w) = Some x ->
  chains (self w) = [] ->
  _call get_color_mapping inputs run_manager w
  = (Ok {[ output_key (self w) := x ]}, w).
Proof.
  intros Hd Hx Hnil. unfold _call.
  rewrite M_bind_unfold. unfold dict_read at 1. rewrite Hd.
  rewrite M_bind_unfold, get_attr_self.
  rewrite M_bind_unfold. unfold of_result at 1, getitem at 1. rewrite Hx.
  rewrite M_bind_unfold, get_attr_self.
  rewrite M_bind_unfold, get_attr_self, Hnil.
  reflexivity.
Qed.


(** X14. With at least one step, the last notification [_call] sends is the
    text of the value it returns. *)
Theorem last_notification_is_result inputs run_manager w d x f :
  colors_total get_color_mapping ->
  dicts w !! inputs = Some d ->
  d !! input_key (self w) = Some x ->
  steps_return (chains (self w)) f ->
  chains (self w) ≠ [] ->
  exists z color w',
    _call get_color_mapping inputs run_manager w
    = (Ok {[ output_key (self w) := z ]}, w')
    /\ last (trace w')
       = Some (EvText (or_noop run_manager) z color newline (verbose (self w))).
Proof.
  intros Hcolors Hd Hx Hret Hne.
  destruct (exists_last Hne) as (cs & chain & Hsplit).
  rewrite (_call_composition _ _ _ _ d x f Hcolors Hd Hx Hret).
  do 3 eexists. split; [reflexivity |]. cbn [trace].
  rewrite Hsplit, notifications_snoc, !app_assoc. apply last_snoc.
Qed.

(** X15. When a step raises, [_call] raises that very exception: the steps
    after it are not invoked, and the notifications sent are those of the
    steps before it, their intermediate values, and what the failing step
    itself sent; its value is not reported. *)
Theorem scalar_step_exception_propagates
    inputs run_manager w d x f before chain after evs e :
  colors_total get_color_mapping ->
  dicts w !! inputs = Some d ->
  d !! input_key (self w) = Some x ->
  chains (self w) = before ++ chain :: after ->
  steps_return before f ->
  chain_run chain
    (get_child (or_noop run_manager)
               (Some ("step_" +:+ str (length before + 1))))
    (composition (strip_outputs (self w)) f before x)
  = (evs, Raise e) ->
  _call get_color_mapping inputs run_manager w
  = (Raise e,
     mkWorld (self w) (dicts w)
       (trace w
        ++ notifications (self w) (or_noop run_manager)
             (get_color_mapping (str <$> seq 0 (length (chains (self w)))))
             f 0 before x
        ++ evs)).
Proof.
  intros Hcolors Hd Hx Hchains Hret Hrun. unfold _call.
  rewrite M_bind_unfold. unfold dict_read at 1. rewrite Hd.
  rewrite M_bind_unfold, get_attr_self.
  rewrite M_bind_unfold. unfold of_result at 1, getitem at 1. rewrite Hx.
  rewrite M_bind_unfold, get_attr_self.
  rewrite M_bind_unfold, get_attr_self.
  rewrite M_bind_unfold. rewrite Hchains at 2.
  rewrite scalar_call_steps_app, M_bind_unfold.
  rewrite (call_steps_composition _ _ _ f); [| exact Hret |].
  - cbn [call_steps Nat.add]. rewrite M_bind_unfold.
    unfold invoke at 1. cbn [self]. rewrite Hrun. cbn [fst snd self dicts trace].
    by rewrite app_assoc.
  - intros j Hj. apply Hcolors. apply list_elem_of_fmap_2.
    apply elem_of_seq. rewrite Hchains, length_app. cbn [length]. lia.
Qed.

(** X16. Splitting a scalar pipeline in two and feeding what the first part
    returns to the second part gives the value the whole pipeline returns. *)
Theorem scalar_pipelines_compose
    cs1 cs2 flag key_in key_mid key_out x f
    (whole first second : World Obj string)
    (l l1 : positive) (d d1 : gmap string string)
    (rm rm1 rm2 : option RunManager) :
  colors_total get_color_mapping ->
  steps_return (cs1 ++ cs2) f ->
  chains (self whole) = cs1 ++ cs2 ->
  chains (self first) = cs1 ->
  chains (self second) = cs2 ->
  strip_outputs (self whole) = flag ->
  strip_outputs (self first) = flag ->
  strip_outputs (self second) = flag ->
  input_key (self whole) = key_in -> output_key (self whole) = key_out ->
  input_key (self first) = key_in -> output_key (self first) = key_mid ->
  input_key (self second) = key_mid -> output_key (self second) = key_out ->
  dicts whole !! l = Some d -> d !! key_in = Some x ->
  dicts first !! l1 = Some d1 -> d1 !! key_in = Some x ->
  exists y z,
    fst (_call get_color_mapping l1 rm1 first) = Ok {[ key_mid := y ]}
    /\ fst (_call get_color_mapping l rm whole) = Ok {[ key_out := z ]}
    /\ forall l2 d2,
         dicts second !! l2 = Some d2 -> d2 !! key_mid = Some y ->
         fst (_call get_color_mapping l2 rm2 second) = Ok {[ key_out := z ]}.
Proof.
  intros Hcolors Hret Hw H1 H2 Hfw Hf1 Hf2 Hiw How Hi1 Ho1 Hi2 Ho2 Hd Hx Hd1 Hx1.
  assert (steps_return cs1 f) as Hret1.
  { intros c cb v Hc. apply Hret. apply elem_of_app. by left. }
  assert (steps_return cs2 f) as Hret2.
  { intros c cb v Hc. apply Hret. apply elem_of_app. by right. }
  exists (composition flag f cs1 x), (composition flag f (cs1 ++ cs2) x).
  split; [| split].
  - rewrite (_call_composition _ _ _ _ d1 x f Hcolors Hd1);
      [| by rewrite Hi1 | by rewrite H1].
    cbn [fst]. by rewrite Ho1, Hf1, H1.
  - rewrite (_call_composition _ _ _ _ d x f Hcolors Hd);
      [| by rewrite Hiw | by rewrite Hw].
    cbn [fst]. by rewrite How, Hfw, Hw.
  - intros l2 d2 Hd2 Hy.
    rewrite (_call_composition _ _ _ _ d2 (composition flag f cs1 x) f
               Hcolors Hd2);
      [| by rewrite Hi2 | by rewrite H2].
    cbn [fst]. by rewrite Ho2, Hf2, H2, composition_app.
Qed.
End Facts.

(** X17. A scalar pipeline declares exactly one input key and one output
    key; hence steps that declare the keys of scalar pipelines, whatever
    these are, pass the structural check: scalar pipelines nest. *)
Theorem scalar_pipelines_nest (self : Obj) :
  Forall (fun chain =>
            exists inner : Obj,
              input_keys chain = SimpleSequentialChainKeys.input_keys inner
              /\ output_keys chain = SimpleSequentialChainKeys.output_keys inner)
         (chains self) ->
  validate_chains self = Ok self.
Proof.
  intros Hall. unfold validate_chains.
  assert (validate_each (chains self) = Ok tt) as ->; [| reflexivity].
  induction Hall as [| chain cs (inner & Hin & Hout) _ IH]; [reflexivity |].
  cbn [validate_each]. rewrite Hin, Hout.
  unfold SimpleSequentialChainKeys.input_keys,
    SimpleSequentialChainKeys.output_keys. cbn [length].
  destruct (decide (1 ≠ 1)); [done | exact IH].
Qed.
End ScalarExecutionMore.

(** * The further properties on concrete pipelines *)

Module MoreWitnesses.
Import Examples MoreExamples.
Import KeyedValidationExamples.


Lemma validation_idempotent_witness :
  SequentialChain.validate_chains
    (SequentialChain.set_output_variables two_steps
       (SequentialChain.PyList ["c"]))
  = Ok (SequentialChain.set_output_variables two_steps
          (SequentialChain.PyList ["c"])).
Proof.
  apply (KeyedValidationMore.validation_idempotent two_steps).
  reflexivity.
Defined.


Lemma produced_names_are_new_witness :
  ("c" ∉ SequentialChain.values_input_variables two_steps)
  /\ ("c" ∉ SequentialChain.pipeline_memory_keys two_steps)
  /\ forall i earlier, i < 1 ->
       SequentialChain.values_chains two_steps !! i = Some earlier ->
       "c" ∉ output_keys earlier.
Proof.
  apply (KeyedValidationMore.produced_names_are_new two_steps
           (SequentialChain.set_output_variables two_steps
              (SequentialChain.PyList ["c"])) eq_refl 1 step2 "c").
  - reflexivity.
  - apply list_elem_of_here.
Defined.

Lemma return_all_output_keys_witness :
  (list_to_set (SequentialChainKeys.output_keys two_steps_all_obj) : gset string)
  = list_to_set (SequentialChain.pipeline_memory_keys two_steps_all)
    ∪ SequentialChain.produced (SequentialChain.values_chains two_steps_all)
  /\ (forall k, k ∈ SequentialChainKeys.output_keys two_steps_all_obj ->
                k ∉ SequentialChainKeys.input_keys two_steps_all_obj)
  /\ SequentialChainKeys.input_keys two_steps_all_obj
     = SequentialChain.values_input_variables two_steps_all.
Proof.
  apply (KeyedValidationMore.return_all_output_keys two_steps_all).
  - reflexivity.
  - reflexivity.
  - reflexivity.
Defined.

Lemma prefix_accepted_witness :
  exists shorter,
    SequentialChain.validate_chains
      (SequentialChain.with_chains two_steps_all
         (take 1 (SequentialChain.values_chains two_steps_all)))
    = Ok shorter.
Proof.
  eapply (KeyedValidationMore.prefix_accepted two_steps_all _ 1).
  - reflexivity.
  - reflexivity.
  - reflexivity.
Defined.

Lemma returned_keys_witness :
  dom (match fst (SequentialChain._call 1%positive None (world_a1 two_steps_obj)) with
       | Ok r => r
       | Raise _ => ∅
       end)
  = list_to_set ["c"].
Proof.
  assert (fst (SequentialChain._call 1%positive None (world_a1 two_steps_obj))
          = Ok {[ "c" := 3%Z ]}) as Hfst by reflexivity.
  destruct (SequentialChain._call 1%positive None (world_a1 two_steps_obj))
    as [res w'] eqn:Hcall.
  cbn [fst] in Hfst. subst res. cbn [fst].
  exact (proj1 (KeyedExecutionMore.returned_keys _ _ _ _ _ Hcall)).
Defined.

Lemma missing_output_variable_witness :
  fst (SequentialChain._call 1%positive None (world_a1 with_memory_obj))
  = Raise (KeyError "m").
Proof.
  erewrite (KeyedExecutionMore.missing_output_variable
              1%positive None (world_a1 with_memory_obj) {[ "a" := 1%Z ]}
              _ _ [] "m" []).
  - reflexivity.
  - reflexivity.
  - vm_compute. reflexivity.
  - reflexivity.
  - intros k Hk. by apply elem_of_nil in Hk.
  - reflexivity.
Defined.

Lemma step_exception_propagates_witness :
  fst (SequentialChain._call 1%positive None (world_a1 raising_obj))
  = Raise (StepError "needs_x").
Proof.
  erewrite (KeyedExecutionMore.step_exception_propagates
              1%positive None (world_a1 raising_obj) {[ "a" := 1%Z ]}
              [step1] needs_x [step2]).
  - reflexivity.
  - reflexivity.
  - reflexivity.
  - vm_compute. reflexivity.
  - vm_compute. reflexivity.
Defined.

Lemma accumulator_grows_witness :
  exists acc,
    dicts (snd (SequentialChain._call 1%positive None (world_a1 two_steps_obj)))
      !! fresh (dom (dicts (world_a1 two_steps_obj)))
    = Some acc
    /\ dom ({[ "a" := 1%Z ]} : gmap string Z) ⊆ dom acc.
Proof.
  apply (KeyedExecutionMore.accumulator_grows 1%positive None
           (world_a1 two_steps_obj)).
  reflexivity.
Defined.

Lemma missing_input_key_witness :
  SimpleSequentialChain._call cycling_colors 1%positive None (world_hi wrong_key)
  = (Raise (KeyError "text"), world_hi wrong_key)
  /\ run_async (SimpleSequentialChain._acall cycling_colors 1%positive None)
               (world_hi wrong_key)
     = (Raise (KeyError "text"), world_hi wrong_key).
Proof.
  apply (ScalarExecutionMore.missing_input_key cycling_colors 1%positive None
           (world_hi wrong_key) {[ "input" := " hi " ]});
    reflexivity.
Defined.

Lemma no_steps_identity_witness :
  SimpleSequentialChain._call cycling_colors 1%positive None
    (world_hi no_scalar_steps)
  = (Ok {[ "output" := " hi " ]}, world_hi no_scalar_steps).
Proof.
  apply (ScalarExecutionMore.no_steps_identity cycling_colors 1%positive None
           (world_hi no_scalar_steps) {[ "input" := " hi " ]} " hi ");
    reflexivity.
Defined.


Lemma last_notification_is_result_witness :
  exists z color w',
    SimpleSequentialChain._call cycling_colors 1%positive (Some (Manager 7))
      (world_hi (upper_then_reverse false))
    = (Ok {[ "output" := z ]}, w')
    /\ last (trace w')
       = Some (EvText (Manager 7) z color SimpleSequentialChain.newline false).
Proof.
  apply (ScalarExecutionMore.last_notification_is_result cycling_colors
           1%positive (Some (Manager 7)) (world_hi (upper_then_reverse false))
           {[ "input" := " hi " ]} " hi " example_function).
  - apply ExecutionExamples.cycling_colors_total.
  - reflexivity.
  - reflexivity.
  - apply ExecutionExamples.example_steps_return.
  - discriminate.
Defined.

Lemma scalar_step_exception_propagates_witness :
  fst (SimpleSequentialChain._call cycling_colors 1%positive None
         (world_hi failing_second))
  = Raise (StepError "failing").
Proof.
  erewrite (ScalarExecutionMore.scalar_step_exception_propagates cycling_colors
              1%positive None (world_hi failing_second) {[ "input" := " hi " ]}
              " hi " example_function [uppercase] failing [reverse]).
  - reflexivity.
  - apply ExecutionExamples.cycling_colors_total.
  - reflexivity.
  - reflexivity.
  - reflexivity.
  - intros chain cb x Hc. apply list_elem_of_singleton in Hc as ->. reflexivity.
  - reflexivity.
Defined.

Lemma scalar_pipelines_compose_witness :
  exists y z,
    fst (SimpleSequentialChain._call cycling_colors 1%positive None
           (world_hi (only_upper true)))
    = Ok {[ "mid" := y ]}
    /\ fst (SimpleSequentialChain._call cycling_colors 1%positive None
              (world_hi (upper_then_reverse true)))
       = Ok {[ "output" := z ]}
    /\ forall l2 d2,
         dicts (world_mid "HI" (only_reverse true)) !! l2 = Some d2 ->
         d2 !! "mid" = Some y ->
         fst (SimpleSequentialChain._call cycling_colors l2 None
                (world_mid "HI" (only_reverse true)))
         = Ok {[ "output" := z ]}.
Proof.
  apply (ScalarExecutionMore.scalar_pipelines_compose cycling_colors
           [uppercase] [reverse] true "input" "mid" "output" " hi "
           example_function
           (world_hi (upper_then_reverse true)) (world_hi (only_upper true))
           (world_mid "HI" (only_reverse true))
           1%positive 1%positive {[ "input" := " hi " ]} {[ "input" := " hi " ]}
           None None None);
    try reflexivity.
  - apply ExecutionExamples.cycling_colors_total.
  - apply ExecutionExamples.example_steps_return.
Defined.

Lemma scalar_pipelines_nest_witness :
  SimpleSequentialChain.validate_chains (upper_then_reverse false)
  = Ok (upper_then_reverse false).
Proof.
  apply ScalarExecutionMore.scalar_pipelines_nest.
  constructor; [exists inner_upper; by split |].
  constructor; [exists inner_reverse; by split |].
  constructor.
Defined.
End MoreWitnesses.
